(** * BioMINTech stock tracker: the inventory core of [src/lib/inventory.ts]

    A shallow embedding of the status rule, the query engine
    ([filterAndSort]), the record-store handlers of [InventoryApp]
    ([adjustQty], [confirmQuickCheck], [remove], [addMember], ...) and the
    realtime merge handlers ([mergeOne], [rowToItem], the checkers INSERT
    handler), followed by the properties established about them.

    Conventions of the embedding:
    - a TypeScript [number] that holds a count or an id is a [Z];
    - a TypeScript [string] is the [string] of its UTF-8 bytes;
    - the built-ins whose result depends on Unicode or locale data or on
      date parsing ([toLowerCase], [trim], [localeCompare],
      [new Date(s).getTime()]) are operations of the host, class
      [Platform]: the embedding and every statement about it hold for
      every host;
    - an optional field [f?: T] is an [option T];
    - React state is passed explicitly: a handler that calls
      [setItems(prev => e)] is the function [prev ↦ e];
    - [nowISO()], the answer of [confirm(...)] and the outcome of an awaited
      database call are inputs of the handler that uses them. *)

From Stdlib Require Import ZArith Ascii String List.
From stdpp Require Import base tactics option list sorting strings gmap.

Local Open Scope string_scope.
Local Open Scope list_scope.
Local Open Scope Z_scope.

(** ** Strings

    [includes] and [join] are the built-ins of the source.  [asciiLower]
    and [asciiTrim] are not: they fold the letters [A-Z] and strip the six
    ASCII white space characters only.  [asciiLower] is what "equal up to
    ASCII case" means in the statements, and both serve as the
    [toLowerCase] and [trim] of the host [codeUnitPlatform], on which the
    definitions are run on ASCII inputs. *)

Module Str.

(** Code unit of an ASCII upper-case letter. *)
Definition isUpper (c : ascii) : bool :=
  let n := N_of_ascii c in (N.leb 65 n && N.leb n 90)%bool.

Definition lowerChar (c : ascii) : ascii :=
  if isUpper c then ascii_of_N (N_of_ascii c + 32) else c.

(** The string with its letters [A-Z] folded to [a-z]. *)
Fixpoint asciiLower (s : string) : string :=
  match s with
  | EmptyString => EmptyString
  | String c s' => String (lowerChar c) (asciiLower s')
  end.

(** Tab, line feed, vertical tab, form feed, carriage return and space. *)
Definition isAsciiSpace (c : ascii) : bool :=
  let n := N_of_ascii c in
  ((N.leb 9 n && N.leb n 13) || N.eqb n 32)%bool.

Fixpoint asciiTrimStart (s : string) : string :=
  match s with
  | EmptyString => EmptyString
  | String c s' => if isAsciiSpace c then asciiTrimStart s' else s
  end.

Fixpoint asciiTrimEnd (s : string) : string :=
  match s with
  | EmptyString => EmptyString
  | String c s' =>
      match asciiTrimEnd s' with
      | EmptyString =>
          if isAsciiSpace c then EmptyString else String c EmptyString
      | t => String c t
      end
  end.

(** The string without its leading and trailing ASCII white space. *)
Definition asciiTrim (s : string) : string := asciiTrimEnd (asciiTrimStart s).

(** [s.includes(q)]: [q] occurs in [s] as a contiguous substring. *)
Fixpoint includes (s q : string) : bool :=
  (String.prefix q s ||
   match s with
   | EmptyString => false
   | String _ s' => includes s' q
   end)%bool.

(** [xs.join(sep)] *)
Fixpoint join (sep : string) (xs : list string) : string :=
  match xs with
  | [] => ""
  | [x] => x
  | x :: rest => (x ++ sep ++ join sep rest)%string
  end.

End Str.

(** ** Types *)

(** [type Status = "ปกติ" | "ใกล้หมด" | "หมด"] *)
Inductive Status : Set :=
  | Normal   (* "ปกติ" *)
  | Low      (* "ใกล้หมด" *)
  | Empty.   (* "หมด" *)

Global Instance Status_eq_dec : EqDecision Status.
Proof. solve_decision. Defined.

(** The string a [Status] value is at run time. *)
Definition Status_label (s : Status) : string :=
  match s with
  | Normal => "ปกติ"
  | Low => "ใกล้หมด"
  | Empty => "หมด"
  end.

(** The "no filter" choice of the three drop-downs. *)
Definition ALL : string := "ทั้งหมด".

Module Item.
(** [type Item] *)
Record t : Type := mk {
  id : Z;
  category : string;
  name : string;
  qty : Z;
  unit : string;
  status : Status;
  location : string;
  checkedBy : option (list string);
  lastUpdated : option string  (* ISO *)
}.
End Item.

(** ** Status rule *)

Definition computeStatus (qty low : Z) : Status :=
  if qty <=? 0 then Empty
  else if qty <=? low then Low
  else Normal.

(** ** Filter & Sort *)

(** [type SortKey = keyof Item] *)
Inductive SortKey : Set :=
  | K_id | K_category | K_name | K_qty | K_unit | K_status | K_location
  | K_checkedBy | K_lastUpdated.

(** [Status | "ทั้งหมด"], the type of the status filter. *)
Inductive StatusFilter : Set :=
  | AllStatuses                (* "ทั้งหมด" *)
  | OnlyStatus (s : Status).

Global Instance StatusFilter_eq_dec : EqDecision StatusFilter.
Proof. solve_decision. Defined.

Module Filters.
Record t : Type := mk {
  q : option string;
  category : option string;
  status : option StatusFilter;
  location : option string;
  onlyLow : option bool
}.
(** [{}] *)
Definition none : t := mk None None None None None.
End Filters.

Module Sort.
Record t : Type := mk { key : SortKey; asc : bool }.
End Sort.

(** The built-ins of the host whose result depends on Unicode data, on
    locale data or on date parsing.  The embedding is parametric in them:
    - [toLowerCase s] is [s.toLowerCase()], which folds every cased letter;
    - [trim s] is [s.trim()], which strips every white space character and
      line terminator of Unicode from both ends;
    - [localeCompare a b] is [a.localeCompare(b, "th")];
    - [Date_getTime s] is [new Date(s).getTime()], [None] standing for the
      [NaN] of a string that does not parse as a date.
    Two facts about [toLowerCase] are used: the empty string has no letter
    to fold, and a string and the same string with its letters [A-Z]
    folded have the same lower-case form ([A-Z] are cased letters with
    lower-case forms [a-z], and whether a letter is cased is all that the
    context rules of lower-casing look at). *)
Class Platform : Type := {
  toLowerCase : string → string;
  trim : string → string;
  localeCompare : string → string → Z;
  Date_getTime : string → option Z;
  toLowerCase_empty : toLowerCase "" = "";
  toLowerCase_ascii : ∀ s, toLowerCase (Str.asciiLower s) = toLowerCase s
}.

(** [Array.prototype.sort(cmp)] sorts stably: [a] is placed after a later
    element [b] only when [cmp(a, b) > 0].  It is modelled by a stable
    insertion sort; the engine's algorithm is not fixed by the language,
    and [Array_sort_qty_unique] below shows that on distinct quantities the
    result does not depend on it. *)
Fixpoint Array_insert {A} (cmp : A → A → Z) (x : A) (l : list A) : list A :=
  match l with
  | [] => [x]
  | y :: l' => if cmp x y <=? 0 then x :: y :: l' else y :: Array_insert cmp x l'
  end.

Fixpoint Array_sort {A} (cmp : A → A → Z) (l : list A) : list A :=
  match l with
  | [] => []
  | x :: l' => Array_insert cmp x (Array_sort cmp l')
  end.

Section FilterAndSort.
Context `{Platform}.

(** [String(a[key] ?? "")] *)
Definition fieldString (key : SortKey) (a : Item.t) : string :=
  match key with
  | K_category => Item.category a
  | K_name => Item.name a
  | K_unit => Item.unit a
  | K_status => Status_label (Item.status a)
  | K_location => Item.location a
  | K_checkedBy => from_option (Str.join ",") "" (Item.checkedBy a)
  | K_lastUpdated => default "" (Item.lastUpdated a)
  | K_id | K_qty => ""
  end.

(** [Number.isFinite(Number(a[key])) ? Number(a[key]) : 0] on the two
    numeric keys. *)
Definition fieldNumber (key : SortKey) (a : Item.t) : Z :=
  match key with
  | K_id => Item.id a
  | K_qty => Item.qty a
  | _ => 0
  end.

(** [A ? new Date(A).getTime() : 0], [None] standing for [NaN]. *)
Definition fieldTime (A : option string) : option Z :=
  match A with
  | None => Some 0
  | Some s => if bool_decide (s = "") then Some 0 else Date_getTime s
  end.

(** The comparator [cmp] built inside [filterAndSort], as the number
    [sort] acts on: [sort] reads a result that is [NaN] as [+0], and the
    difference of two times is [NaN] when one of them is. *)
Definition cmp (key : SortKey) (asc : bool) (a b : Item.t) : Z :=
  match key with
  | K_qty | K_id =>
      let nA := fieldNumber key a in
      let nB := fieldNumber key b in
      let res := nA - nB in if asc then res else - res
  | K_lastUpdated =>
      match fieldTime (Item.lastUpdated a), fieldTime (Item.lastUpdated b) with
      | Some tA, Some tB => let res := tA - tB in if asc then res else - res
      | _, _ => 0
      end
  | _ =>
      let res := localeCompare (fieldString key a) (fieldString key b) in
      if asc then res else - res
  end.

(** The free-text predicate of the first [filter]. *)
Definition matchesQuery (q : string) (i : Item.t) : bool :=
  Str.includes (toLowerCase (Item.name i)) q
  || Str.includes (toLowerCase (Item.category i)) q
  || Str.includes (toLowerCase (Item.location i)) q.

(** The sequence of [filter] calls of [filterAndSort], up to the sort. *)
Definition filtered (items : list Item.t) (filters : Filters.t) : list Item.t :=
  let q := toLowerCase (default "" (Filters.q filters)) in
  let out := filter (λ i, matchesQuery q i) items in
  let out :=
    if bool_decide (default ALL (Filters.category filters) ≠ ALL)
    then filter (λ i, Some (Item.category i) = Filters.category filters) out
    else out in
  let out :=
    if bool_decide (default AllStatuses (Filters.status filters) ≠ AllStatuses)
    then filter (λ i, Some (OnlyStatus (Item.status i)) = Filters.status filters) out
    else out in
  let out :=
    if bool_decide (default ALL (Filters.location filters) ≠ ALL)
    then filter (λ i, Some (Item.location i) = Filters.location filters) out
    else out in
  let out :=
    if default false (Filters.onlyLow filters)
    then filter (λ i, Item.status i ≠ Normal) out
    else out in
  out.

(** [filterAndSort], as a function from the contents of [items] to the
    contents of the array it returns. *)
Definition filterAndSort (items : list Item.t) (filters : Filters.t)
    (sort : Sort.t) : list Item.t :=
  let out := filtered items filters in
  Array_sort (cmp (Sort.key sort) (Sort.asc sort)) out.

End FilterAndSort.

(** A host in which only ASCII letters are folded and only ASCII white
    space is trimmed, strings compare by bytes and every date parses to
    the epoch; used to run the definitions on concrete ASCII inputs, on
    which its [toLowerCase] and [trim] are those of every host. *)
Definition codeUnitPlatform : Platform.
Proof.
  refine {|
    toLowerCase := Str.asciiLower;
    trim := Str.asciiTrim;
    localeCompare a b :=
      match String.compare a b with Lt => -1 | Eq => 0 | Gt => 1 end;
    Date_getTime _ := Some 0
  |}.
  - reflexivity.
  - intros s. induction s as [|c s IH]; [reflexivity|].
    simpl. rewrite IH. f_equal.
    unfold Str.lowerChar.
    by destruct c as [[] [] [] [] [] [] [] []].
Defined.

(** ** Arrays as heap objects

    [filterAndSort] receives a reference to the caller's array, and
    [Array.prototype.sort] sorts the array it is called on in place.  The
    store maps a reference to the contents of the array it denotes;
    [filter] and the spread [[...out]] allocate, [sort] overwrites. *)

Definition ref := positive.
Abbreviation store := (gmap ref (list Item.t)).

(** Computations over the store that fail on a dangling reference. *)
Definition M (X : Type) : Type := store → option (X * store).

Global Instance M_ret : MRet M := λ X x h, Some (x, h).
Global Instance M_bind : MBind M := λ X Y k m h,
  match m h with
  | Some (x, h') => k x h'
  | None => None
  end.

Definition alloc (v : list Item.t) : M ref :=
  λ h, let r := fresh (dom h) in Some (r, <[r := v]> h).
Definition read (r : ref) : M (list Item.t) :=
  λ h, match h !! r with Some v => Some (v, h) | None => None end.
Definition write (r : ref) (v : list Item.t) : M () :=
  λ h, match h !! r with Some _ => Some ((), <[r := v]> h) | None => None end.

(** [a.filter(p)]: a new array. *)
Definition Array_filter_ref (a : ref) (p : Item.t → Prop)
    `{∀ i, Decision (p i)} : M ref :=
  v ← read a; alloc (filter p v).

(** [[...a]]: a new array with the same elements. *)
Definition Array_spread_ref (a : ref) : M ref :=
  v ← read a; alloc v.

(** [a.sort(cmp)]: sorts [a] in place and returns [a]. *)
Definition Array_sort_ref (a : ref) (cmp : Item.t → Item.t → Z) : M ref :=
  v ← read a; write a (Array_sort cmp v);; mret a.

Section FilterAndSortRef.
Context `{Platform}.

(** [filterAndSort] on references, statement by statement. *)
Definition filterAndSort_ref (items : ref) (filters : Filters.t)
    (sort : Sort.t) : M ref :=
  let q := toLowerCase (default "" (Filters.q filters)) in
  out ← Array_filter_ref items (λ i, matchesQuery q i);
  out ←
    (if bool_decide (default ALL (Filters.category filters) ≠ ALL)
     then Array_filter_ref out
            (λ i, Some (Item.category i) = Filters.category filters)
     else mret out);
  out ←
    (if bool_decide (default AllStatuses (Filters.status filters) ≠ AllStatuses)
     then Array_filter_ref out
            (λ i, Some (OnlyStatus (Item.status i)) = Filters.status filters)
     else mret out);
  out ←
    (if bool_decide (default ALL (Filters.location filters) ≠ ALL)
     then Array_filter_ref out
            (λ i, Some (Item.location i) = Filters.location filters)
     else mret out);
  out ←
    (if default false (Filters.onlyLow filters)
     then Array_filter_ref out (λ i, Item.status i ≠ Normal)
     else mret out);
  copy ← Array_spread_ref out;
  Array_sort_ref copy (cmp (Sort.key sort) (Sort.asc sort)).

End FilterAndSortRef.

(** ** [new Set(xs)] and [Array.from(set)]

    A JavaScript [Set] of strings keeps its elements in insertion order and
    compares them with [===]. *)
Definition Set_add (s : list string) (x : string) : list string :=
  if bool_decide (x ∈ s) then s else (s ++ [x])%list.
Definition Set_new (xs : list string) : list string := foldl Set_add [] xs.
Definition Array_from (s : list string) : list string := s.

(** ** Rows of the [items] table, as a realtime event delivers them *)

Module Row.
Record t : Type := mk {
  id : Z;
  category : string;
  name : string;
  qty : Z;
  unit : string;
  status : Status;
  location : string;
  checked_by : option (list string);    (* [null] is [None] *)
  last_updated : option string          (* [null] is [None] *)
}.
End Row.

(** What a handler does besides updating the state. *)
Inductive Effect : Type :=
  | Alert (msg : string)
  | DbUpsertItem (it : Item.t)
  | DbDeleteItem (id : Z)
  | DbSetCheckers (list : list string).

(** ** The component [InventoryApp] *)

Module InventoryApp.

(** The [useState] cells the handlers below read or write. *)
Record State : Type := mkState {
  items : list Item.t;
  checkers : list string;
  autoStatus : bool;
  lowThreshold : Z;
  checkOpen : bool;
  checkTarget : option Item.t;
  checkSelected : list string;          (* a [Set<string>] *)
  newMember : string
}.

Definition setItems (v : list Item.t) (st : State) : State :=
  mkState v (checkers st) (autoStatus st) (lowThreshold st) (checkOpen st)
    (checkTarget st) (checkSelected st) (newMember st).
Definition setCheckers (v : list string) (st : State) : State :=
  mkState (items st) v (autoStatus st) (lowThreshold st) (checkOpen st)
    (checkTarget st) (checkSelected st) (newMember st).
Definition setAutoStatus (v : bool) (st : State) : State :=
  mkState (items st) (checkers st) v (lowThreshold st) (checkOpen st)
    (checkTarget st) (checkSelected st) (newMember st).
Definition setLowThreshold (v : Z) (st : State) : State :=
  mkState (items st) (checkers st) (autoStatus st) v (checkOpen st)
    (checkTarget st) (checkSelected st) (newMember st).
Definition setCheckOpen (v : bool) (st : State) : State :=
  mkState (items st) (checkers st) (autoStatus st) (lowThreshold st) v
    (checkTarget st) (checkSelected st) (newMember st).
Definition setCheckTarget (v : option Item.t) (st : State) : State :=
  mkState (items st) (checkers st) (autoStatus st) (lowThreshold st)
    (checkOpen st) v (checkSelected st) (newMember st).
Definition setCheckSelected (v : list string) (st : State) : State :=
  mkState (items st) (checkers st) (autoStatus st) (lowThreshold st)
    (checkOpen st) (checkTarget st) v (newMember st).
Definition setNewMember (v : string) (st : State) : State :=
  mkState (items st) (checkers st) (autoStatus st) (lowThreshold st)
    (checkOpen st) (checkTarget st) (checkSelected st) v.

(** *** helpers *)

Definition mergeOne (prev : list Item.t) (it : Item.t) : list Item.t :=
  let exists_ := existsb (λ x, Item.id x =? Item.id it) prev in
  if exists_
  then (λ x, if Item.id x =? Item.id it then it else x) <$> prev
  else (prev ++ [it])%list.

Definition rowToItem (r : Row.t) : Item.t :=
  {| Item.id := Row.id r;
     Item.category := Row.category r;
     Item.name := Row.name r;
     Item.qty := Row.qty r;
     Item.unit := Row.unit r;
     Item.status := Row.status r;
     Item.location := Row.location r;
     Item.checkedBy := Some (default [] (Row.checked_by r));
     Item.lastUpdated := Row.last_updated r |}.

(** *** Realtime handlers (the [postgres_changes] callbacks) *)

Definition onItemsInsert (r : Row.t) (prev : list Item.t) : list Item.t :=
  mergeOne prev (rowToItem r).
Definition onItemsUpdate (r : Row.t) (prev : list Item.t) : list Item.t :=
  mergeOne prev (rowToItem r).
Definition onItemsDelete (id : Z) (prev : list Item.t) : list Item.t :=
  filter (λ i, Item.id i ≠ id) prev.
Definition onCheckersInsert (name : string) (prev : list string) : list string :=
  Array_from (Set_new (prev ++ [name])%list).
Definition onCheckersDelete (name : string) (prev : list string) : list string :=
  filter (λ n, n ≠ name) prev.

(** *** Quick-check modal *)

Definition openQuickCheck (it : Item.t) (st : State) : State :=
  setCheckOpen true
    (setCheckSelected (Set_new (default [] (Item.checkedBy it)))
       (setCheckTarget (Some it) st)).

Definition toggleChecker (name : string) (st : State) : State :=
  let prev := checkSelected st in
  let s := Set_new prev in
  setCheckSelected
    (if bool_decide (name ∈ s) then filter (λ n, n ≠ name) s else Set_add s name)
    st.

Definition confirmQuickCheck (now : string) (dbOk : bool) (st : State)
    : State * list Effect :=
  match checkTarget st with
  | None => (st, [])
  | Some target =>
      let list := Array_from (checkSelected st) in
      let updated :=
        {| Item.id := Item.id target;
           Item.category := Item.category target;
           Item.name := Item.name target;
           Item.qty := Item.qty target;
           Item.unit := Item.unit target;
           Item.status := Item.status target;
           Item.location := Item.location target;
           Item.checkedBy := Some list;
           Item.lastUpdated := Some now |} in
      if dbOk then
        (setCheckTarget None
           (setCheckOpen false
              (setItems
                 ((λ i, if Item.id i =? Item.id updated then updated else i)
                    <$> items st) st)),
         [DbUpsertItem updated])
      else (st, [DbUpsertItem updated])
  end.

(** *** Manage-members modal *)

Section AddMember.
Context `{Platform}.

Definition addMember (dbOk : bool) (st : State) : State * list Effect :=
  let name := trim (newMember st) in
  if bool_decide (name = "") then (st, [])
  else if existsb
            (λ c, bool_decide (toLowerCase c = toLowerCase name))
            (checkers st)
  then (st, [Alert "มีชื่อนี้อยู่แล้ว"])
  else
    let next := (checkers st ++ [name])%list in
    if dbOk then (setNewMember "" (setCheckers next st), [DbSetCheckers next])
    else (st, [DbSetCheckers next]).

End AddMember.

Definition removeMember (name : string) (confirmed dbOk : bool) (st : State)
    : State * list Effect :=
  if negb confirmed then (st, [])
  else
    let next := filter (λ n, n ≠ name) (checkers st) in
    if dbOk then (setCheckers next st, [DbSetCheckers next])
    else (st, [DbSetCheckers next]).

(** *** Inline handlers *)

Definition remove (id : Z) (confirmed dbOk : bool) (st : State)
    : State * list Effect :=
  if negb confirmed then (st, [])
  else if dbOk
  then (setItems (filter (λ i, Item.id i ≠ id) (items st)) st, [DbDeleteItem id])
  else (st, [DbDeleteItem id]).

(** The function [adjustQty] maps over the previous items. *)
Definition adjustQty_item (autoStatus : bool) (lowThreshold : Z) (now : string)
    (id delta : Z) (i : Item.t) : Item.t :=
  if negb (Item.id i =? id) then i
  else
    let newQty := Z.max 0 (Item.qty i + delta) in
    let newStatus :=
      if autoStatus then computeStatus newQty lowThreshold else Item.status i in
    {| Item.id := Item.id i;
       Item.category := Item.category i;
       Item.name := Item.name i;
       Item.qty := newQty;
       Item.unit := Item.unit i;
       Item.status := newStatus;
       Item.location := Item.location i;
       Item.checkedBy := Item.checkedBy i;
       Item.lastUpdated := Some now |}.

(** The record [adjustQty] writes through, computed from the rendered
    [items]. *)
Definition adjustQty_toSave (autoStatus : bool) (lowThreshold : Z)
    (now : string) (id delta : Z) (items : list Item.t) : option Item.t :=
  match List.find (λ i, Item.id i =? id) items with
  | Some cur =>
      Some {| Item.id := Item.id cur;
              Item.category := Item.category cur;
              Item.name := Item.name cur;
              Item.qty := Z.max 0 (Item.qty cur + delta);
              Item.unit := Item.unit cur;
              Item.status :=
                if autoStatus
                then computeStatus (Z.max 0 (Item.qty cur + delta)) lowThreshold
                else Item.status cur;
              Item.location := Item.location cur;
              Item.checkedBy := Item.checkedBy cur;
              Item.lastUpdated := Some now |}
  | None => None
  end.

Definition adjustQty (id delta : Z) (now nowSave : string) (st : State)
    : State * list Effect :=
  (setItems
     (adjustQty_item (autoStatus st) (lowThreshold st) now id delta <$> items st)
     st,
   match adjustQty_toSave (autoStatus st) (lowThreshold st) nowSave id delta
           (items st) with
   | Some toSave => [DbUpsertItem toSave]
   | None => []
   end).

(** *** The component as a transition system *)

Inductive Event : Type :=
  | AdjustQty (id delta : Z) (now nowSave : string)
  | OpenQuickCheck (it : Item.t)
  | ToggleChecker (name : string)
  | ConfirmQuickCheck (now : string) (dbOk : bool)
  | TypeNewMember (text : string)
  | AddMember (dbOk : bool)
  | RemoveMember (name : string) (confirmed dbOk : bool)
  | Remove (id : Z) (confirmed dbOk : bool)
  | ToggleAutoStatus (checked : bool)
  | TypeLowThreshold (value : Z)
  | ItemsInsert (r : Row.t)
  | ItemsUpdate (r : Row.t)
  | ItemsDelete (id : Z)
  | CheckersInsert (name : string)
  | CheckersDelete (name : string).

Section Step.
Context `{Platform}.

Definition step (st : State) (e : Event) : State * list Effect :=
  match e with
  | AdjustQty id delta now nowSave => adjustQty id delta now nowSave st
  | OpenQuickCheck it => (openQuickCheck it st, [])
  | ToggleChecker name => (toggleChecker name st, [])
  | ConfirmQuickCheck now dbOk => confirmQuickCheck now dbOk st
  | TypeNewMember text => (setNewMember text st, [])
  | AddMember dbOk => addMember dbOk st
  | RemoveMember name confirmed dbOk => removeMember name confirmed dbOk st
  | Remove id confirmed dbOk => remove id confirmed dbOk st
  | ToggleAutoStatus checked => (setAutoStatus checked st, [])
  | TypeLowThreshold value => (setLowThreshold (Z.max 1 value) st, [])
  | ItemsInsert r => (setItems (onItemsInsert r (items st)) st, [])
  | ItemsUpdate r => (setItems (onItemsUpdate r (items st)) st, [])
  | ItemsDelete id => (setItems (onItemsDelete id (items st)) st, [])
  | CheckersInsert name => (setCheckers (onCheckersInsert name (checkers st)) st, [])
  | CheckersDelete name => (setCheckers (onCheckersDelete name (checkers st)) st, [])
  end.

(** The state after a sequence of events, in arrival order. *)
Definition run (st : State) (es : list Event) : State :=
  foldl (λ s e, (step s e).1) st es.

End Step.

End InventoryApp.

(** ** Vocabulary of the statements *)

(** [a] may stand before [b] in an array sorted with [cmp]. *)
Definition cmp_le {A} (cmp : A → A → Z) (a b : A) : Prop := cmp a b ≤ 0.

(** Every record of a list has a quantity that is not negative. *)
Definition nonNegative (l : list Item.t) : Prop :=
  Forall (λ i, 0 ≤ Item.qty i) l.

(** Two names are equal up to the case of their ASCII letters. *)
Definition sameNameIgnoringCase (a b : string) : Prop :=
  Str.asciiLower a = Str.asciiLower b.

Module Invariant.
Import InventoryApp.

(** The quantity invariant of the component: it covers the records of the
    store and the record the quick-check modal holds a copy of, which
    [confirmQuickCheck] writes back. *)
Definition holds (st : State) : Prop :=
  nonNegative (items st) ∧
  ∀ target, checkTarget st = Some target → 0 ≤ Item.qty target.

(** Events the component can receive in a state: the quick-check button
    belongs to a rendered record of the store, and a row of the [items]
    table carries a quantity that is not negative. *)
Definition admissible (st : State) (e : Event) : Prop :=
  match e with
  | OpenQuickCheck it => it ∈ items st
  | ItemsInsert r | ItemsUpdate r => 0 ≤ Row.qty r
  | _ => True
  end.

Fixpoint admissible_run `{Platform} (st : State) (es : list Event) : Prop :=
  match es with
  | [] => True
  | e :: es' => admissible st e ∧ admissible_run (step st e).1 es'
  end.

End Invariant.

(** ** Further functions of the file *)

Global Instance SortKey_eq_dec : EqDecision SortKey.
Proof. solve_decision. Defined.

(** [nextId]: [Math.max(...ids) + 1], or 1 for an empty list. *)
Definition nextId (items : list Item.t) : Z :=
  match Item.id <$> items with
  | [] => 1
  | x :: xs => foldl Z.max x xs + 1
  end.

(** [DEFAULT_CHECKERS] *)
Definition DEFAULT_CHECKERS : list string :=
  ["Nice"; "Fah"; "Anont"; "Air"; "Ploy"; "Aum"; "Film"; "Aun"; "Ning"; "New";
   "Tong"].

(** The row [dbUpsertItem] sends to the [items] table. *)
Definition upsertRow (it : Item.t) : Row.t :=
  {| Row.id := Item.id it;
     Row.category := Item.category it;
     Row.name := Item.name it;
     Row.qty := Item.qty it;
     Row.unit := Item.unit it;
     Row.status := Item.status it;
     Row.location := Item.location it;
     Row.checked_by := Some (default [] (Item.checkedBy it));
     Row.last_updated := Item.lastUpdated it |}.

(** [summary] has three counters. *)
Module Summary.
Record t : Type := mk { total : nat; low : nat; empty : nat }.
End Summary.

(** The sort cells and the [useMemo] values of [InventoryApp]. *)
Module View.

(** [setSort], on the cells [sortKey] and [sortAsc]. *)
Definition setSort (key : SortKey) (s : Sort.t) : Sort.t :=
  if bool_decide (Sort.key s = key)
  then Sort.mk (Sort.key s) (negb (Sort.asc s))
  else Sort.mk key true.

Definition categories (items : list Item.t) : list string :=
  ALL :: Array_from (Set_new (Item.category <$> items)).

Definition locations (items : list Item.t) : list string :=
  ALL :: Array_from (Set_new (Item.location <$> items)).

Definition summary (items : list Item.t) : Summary.t :=
  {| Summary.total := length items;
     Summary.low := length (filter (λ i, Item.status i = Low) items);
     Summary.empty := length (filter (λ i, Item.status i = Empty) items) |}.

End View.

(** [dbSetCheckers] against the backend: the names to delete and to insert
    are computed from the rows [cur] that the select returns and from the
    wanted roster ([list] in the source, [lst] here), and the two
    writes are issued only for a non-empty list.  [table] is the [checkers]
    table (one row per name) the select read and the writes act on. *)
Module DbSetCheckers.

Definition toDel (cur lst : list string) : list string :=
  let curSet := Set_new cur in
  let newSet := Set_new lst in
  filter (λ x, x ∉ newSet) (Array_from curSet).

Definition toAdd (cur lst : list string) : list string :=
  let curSet := Set_new cur in
  let newSet := Set_new lst in
  filter (λ x, x ∉ curSet) (Array_from newSet).

(** [delete().in("name", names)] *)
Definition delete_in (names table : list string) : list string :=
  filter (λ n, n ∉ names) table.

(** [insert(names.map(n => ({ name: n })))] *)
Definition insert (names table : list string) : list string :=
  table ++ names.

Definition run (lst table : list string) : list string :=
  let cur := table in
  let table :=
    if bool_decide (toDel cur lst ≠ []) then delete_in (toDel cur lst) table
    else table in
  let table :=
    if bool_decide (toAdd cur lst ≠ []) then insert (toAdd cur lst) table
    else table in
  table.

End DbSetCheckers.

(** The local-only version of the component (the variant of the file
    without a backend) confirms a quick check by updating the records of
    the store in place. *)
Module LocalOnly.

Definition confirmQuickCheck (now : string) (st : InventoryApp.State)
    : InventoryApp.State :=
  match InventoryApp.checkTarget st with
  | None => st
  | Some target =>
      let list := Array_from (InventoryApp.checkSelected st) in
      InventoryApp.setCheckTarget None
        (InventoryApp.setCheckOpen false
           (InventoryApp.setItems
              ((λ i, if Item.id i =? Item.id target
                     then {| Item.id := Item.id i;
                             Item.category := Item.category i;
                             Item.name := Item.name i;
                             Item.qty := Item.qty i;
                             Item.unit := Item.unit i;
                             Item.status := Item.status i;
                             Item.location := Item.location i;
                             Item.checkedBy := Some list;
                             Item.lastUpdated := Some now |}
                     else i) <$> InventoryApp.items st) st))
  end.

End LocalOnly.

(** ** The database helpers without a backend

    With no backend configured the helpers keep the data in
    [localStorage], as JSON text under three keys.  A stored text is
    represented by the value [JSON.parse] returns for it, [None] standing
    for a key that is not set. *)
Module LocalDb.

Record Storage : Type := mkStorage {
  STORAGE_KEY : option (list Item.t);       (* "inventory.thai.lab.v6" *)
  CHECKERS_KEY : option (list string);      (* "inventory.checkers.v2" *)
  COVER_KEY : option string                 (* "inventory.coverUrl.v2" *)
}.

(** [dbUpsertItem], the branch [!supabase]. *)
Definition dbUpsertItem (it : Item.t) (ls : Storage) : Storage :=
  let items := default [] (STORAGE_KEY ls) in
  let exists_ := existsb (λ x, Item.id x =? Item.id it) items in
  let next :=
    if exists_
    then (λ x, if Item.id x =? Item.id it then it else x) <$> items
    else items ++ [it] in
  mkStorage (Some next) (CHECKERS_KEY ls) (COVER_KEY ls).

(** [dbDeleteItem], the branch [!supabase]. *)
Definition dbDeleteItem (id : Z) (ls : Storage) : Storage :=
  let items := default [] (STORAGE_KEY ls) in
  mkStorage (Some (filter (λ x, Item.id x ≠ id) items))
    (CHECKERS_KEY ls) (COVER_KEY ls).

(** [dbSetCheckers], the branch [!supabase]. *)
Definition dbSetCheckers (lst : list string) (ls : Storage) : Storage :=
  mkStorage (STORAGE_KEY ls) (Some lst) (COVER_KEY ls).

(** The database call an effect of a handler stands for. *)
Definition perform (ls : Storage) (eff : Effect) : Storage :=
  match eff with
  | Alert _ => ls
  | DbUpsertItem it => dbUpsertItem it ls
  | DbDeleteItem id => dbDeleteItem id ls
  | DbSetCheckers lst => dbSetCheckers lst ls
  end.

(** The storage holds the records and the roster of the state. *)
Definition inSync (st : InventoryApp.State) (ls : Storage) : Prop :=
  STORAGE_KEY ls = Some (InventoryApp.items st) ∧
  CHECKERS_KEY ls = Some (InventoryApp.checkers st).

(** The events of a session without a backend: no remote event arrives,
    the storage calls succeed, the two timestamps of an adjustment
    coincide, and a quick check is confirmed for a record the store still
    holds. *)
Definition localEvent (st : InventoryApp.State) (e : InventoryApp.Event)
    : Prop :=
  match e with
  | InventoryApp.AdjustQty _ _ now nowSave => now = nowSave
  | InventoryApp.ConfirmQuickCheck _ dbOk =>
      dbOk = true ∧
      ∀ target, InventoryApp.checkTarget st = Some target →
                ∃ i, i ∈ InventoryApp.items st ∧ Item.id i = Item.id target
  | InventoryApp.AddMember dbOk
  | InventoryApp.RemoveMember _ _ dbOk
  | InventoryApp.Remove _ _ dbOk => dbOk = true
  | InventoryApp.ItemsInsert _ | InventoryApp.ItemsUpdate _
  | InventoryApp.ItemsDelete _ | InventoryApp.CheckersInsert _
  | InventoryApp.CheckersDelete _ => False
  | _ => True
  end.

End LocalDb.

(** ** Further vocabulary *)

(** The ids of a list of records are pairwise distinct. *)
Definition uniqueIds (l : list Item.t) : Prop := NoDup (Item.id <$> l).

(** The names of a roster are pairwise distinct up to ASCII case. *)
Definition distinctIgnoringCase (roster : list string) : Prop :=
  NoDup (Str.asciiLower <$> roster).

(** A record passes the filters: the conjunction of the conditions the
    successive [filter] calls of [filterAndSort] test. *)
Definition passes `{Platform} (filters : Filters.t) (i : Item.t) : Prop :=
  matchesQuery (toLowerCase (default "" (Filters.q filters))) i = true ∧
  (∀ c, Filters.category filters = Some c → c ≠ ALL → Item.category i = c) ∧
  (∀ s, Filters.status filters = Some (OnlyStatus s) → Item.status i = s) ∧
  (∀ l, Filters.location filters = Some l → l ≠ ALL → Item.location i = l) ∧
  (Filters.onlyLow filters = Some true → Item.status i ≠ Normal).

(** How well stocked a status says a record is. *)
Definition statusRank (s : Status) : Z :=
  match s with Empty => 0 | Low => 1 | Normal => 2 end.

(** [a] and [b] are in the order of the sort direction by the value [f]. *)
Definition inOrder (asc : bool) (f : Item.t → Z) (a b : Item.t) : Prop :=
  if asc then f a ≤ f b else f b ≤ f a.

(** Roster events under which the roster stays distinct up to case: a
    remote "checker added" event qualifies when its name is in the roster
    already or differs from every name of the roster in more than case. *)
Definition rosterAdmissible (st : InventoryApp.State) (e : InventoryApp.Event)
    : Prop :=
  match e with
  | InventoryApp.CheckersInsert name =>
      name ∈ InventoryApp.checkers st ∨
      Str.asciiLower name ∉ Str.asciiLower <$> InventoryApp.checkers st
  | _ => True
  end.

(** * Properties *)

(** ** Status rule *)

Example computeStatus_test_0_1 : computeStatus 0 1 = Empty.
Proof. reflexivity. Qed.
Example computeStatus_test_1_1 : computeStatus 1 1 = Low.
Proof. reflexivity. Qed.
Example computeStatus_test_5_1 : computeStatus 5 1 = Normal.
Proof. reflexivity. Qed.

Lemma computeStatus_Empty q t : computeStatus q t = Empty ↔ q ≤ 0.
Proof.
  unfold computeStatus.
  destruct (Z.leb_spec q 0), (Z.leb_spec q t); split; (done || lia).
Qed.

Lemma computeStatus_Low q t : computeStatus q t = Low ↔ 0 < q ≤ t.
Proof.
  unfold computeStatus.
  destruct (Z.leb_spec q 0), (Z.leb_spec q t); split; (done || lia).
Qed.

Lemma computeStatus_Normal q t : computeStatus q t = Normal ↔ 0 < q ∧ t < q.
Proof.
  unfold computeStatus.
  destruct (Z.leb_spec q 0), (Z.leb_spec q t); split; (done || lia).
Qed.

(** C1. For every integer quantity [q] and threshold [t ≥ 1],
    [computeStatus] (the spec's [deriveStatus]) returns Empty ("หมด") when
    [q ≤ 0], Low ("ใกล้หมด") when [0 < q ≤ t] and Normal ("ปกติ") when
    [q > t], and in no other case; in particular
    [computeStatus 0 t = Empty], [computeStatus t t = Low] and
    [computeStatus (t+1) t = Normal].  Being a function of [q] and [t]
    alone that is defined on every pair, it is pure and total. *)
Theorem computeStatus_spec (q t : Z) :
  1 ≤ t →
  (computeStatus q t = Empty ↔ q ≤ 0) ∧
  (computeStatus q t = Low ↔ 0 < q ≤ t) ∧
  (computeStatus q t = Normal ↔ t < q) ∧
  (Status_label (computeStatus q t) = "หมด" ↔ q ≤ 0) ∧
  (Status_label (computeStatus q t) = "ใกล้หมด" ↔ 0 < q ≤ t) ∧
  (Status_label (computeStatus q t) = "ปกติ" ↔ t < q) ∧
  computeStatus 0 t = Empty ∧
  computeStatus t t = Low ∧
  computeStatus (t + 1) t = Normal.
Proof.
  intros Ht.
  assert (HN : computeStatus q t = Normal ↔ t < q).
  { rewrite computeStatus_Normal. lia. }
  split_and!.
  - apply computeStatus_Empty.
  - apply computeStatus_Low.
  - exact HN.
  - rewrite <- (computeStatus_Empty q t). by destruct (computeStatus q t).
  - rewrite <- (computeStatus_Low q t). by destruct (computeStatus q t).
  - rewrite <- HN. by destruct (computeStatus q t).
  - by apply computeStatus_Empty.
  - apply computeStatus_Low. lia.
  - apply computeStatus_Normal. lia.
Qed.

Lemma computeStatus_spec_witness :
  1 ≤ 3 ∧ (computeStatus 2 3 = Low ↔ 0 < 2 ≤ 3) ∧ computeStatus 3 3 = Low.
Proof.
  split; [lia|].
  destruct (computeStatus_spec 2 3 ltac:(lia)) as (_ & HL & _ & _ & _ & _ & _ & Ht & _).
  split; [exact HL | exact Ht].
Defined.

(** ** [Array.prototype.sort] *)

Section ArraySort.
Context {A : Type} (cmp : A → A → Z).

Lemma Array_insert_Permutation x l : Array_insert cmp x l ≡ₚ x :: l.
Proof.
  induction l as [|y l IH]; simpl; [done|].
  case_match; [done|]. rewrite IH. apply Permutation_swap.
Qed.

Lemma Array_sort_Permutation l : Array_sort cmp l ≡ₚ l.
Proof.
  induction l as [|x l IH]; simpl; [done|].
  by rewrite Array_insert_Permutation, IH.
Qed.

Lemma Array_sort_elem_of x l : x ∈ Array_sort cmp l ↔ x ∈ l.
Proof. by rewrite Array_sort_Permutation. Qed.

(** A comparator is total when of any two elements one may stand before
    the other. *)
Hypothesis cmp_total : ∀ a b, cmp a b ≤ 0 ∨ cmp b a ≤ 0.

Lemma Array_insert_Sorted x l :
  Sorted (cmp_le cmp) l → Sorted (cmp_le cmp) (Array_insert cmp x l).
Proof.
  induction 1 as [|y l Hl IH Hy]; simpl.
  - repeat constructor.
  - destruct (Z.leb_spec (cmp x y) 0) as [Hxy|Hxy].
    + repeat constructor; done.
    + assert (cmp_le cmp y x) by (destruct (cmp_total x y); [lia | done]).
      constructor; [done|].
      destruct Hy as [|z l Hyz]; simpl; [by constructor|].
      case_match; by constructor.
Qed.

Lemma Array_sort_Sorted l : Sorted (cmp_le cmp) (Array_sort cmp l).
Proof.
  induction l as [|x l IH]; simpl; [constructor|].
  by apply Array_insert_Sorted.
Qed.

End ArraySort.

(** ** Query engine *)

Section FilterAndSortFacts.
Context `{Platform}.

Lemma filtered_sublist items filters : filtered items filters `sublist_of` items.
Proof.
  unfold filtered.
  repeat case_match;
    repeat (etrans; [apply sublist_filter; apply _|]); done.
Qed.

Lemma filtered_elem_of items filters i :
  i ∈ filtered items filters →
  matchesQuery (toLowerCase (default "" (Filters.q filters))) i = true ∧
  (∀ c, Filters.category filters = Some c → c ≠ ALL → Item.category i = c) ∧
  (∀ s, Filters.status filters = Some (OnlyStatus s) → Item.status i = s) ∧
  (∀ l, Filters.location filters = Some l → l ≠ ALL → Item.location i = l) ∧
  (Filters.onlyLow filters = Some true → Item.status i ≠ Normal).
Proof.
  unfold filtered. intros Hi.
  split_and!.
  - repeat case_match; rewrite ?list_elem_of_filter in Hi;
      destruct_and?; by apply Is_true_true.
  - intros c Hc Hne. rewrite Hc in Hi. simpl in Hi.
    rewrite (bool_decide_true (c ≠ ALL)) in Hi by done.
    repeat case_match; rewrite ?list_elem_of_filter in Hi;
      destruct_and?; congruence.
  - intros s Hs. rewrite Hs in Hi. simpl in Hi.
    try rewrite (bool_decide_true (OnlyStatus s ≠ AllStatuses)) in Hi by done.
    repeat case_match; rewrite ?list_elem_of_filter in Hi;
      destruct_and?; congruence.
  - intros l Hl Hne. rewrite Hl in Hi. simpl in Hi.
    rewrite (bool_decide_true (l ≠ ALL)) in Hi by done.
    repeat case_match; rewrite ?list_elem_of_filter in Hi;
      destruct_and?; congruence.
  - intros Ho. rewrite Ho in Hi. simpl in Hi.
    repeat case_match; rewrite ?list_elem_of_filter in Hi;
      destruct_and?; done.
Qed.

Lemma filterAndSort_Permutation items filters sort :
  filterAndSort items filters sort ≡ₚ filtered items filters.
Proof. apply Array_sort_Permutation. Qed.

End FilterAndSortFacts.

(** C4. For every input collection, every combination of filters and every
    sort, the records [filterAndSort] returns are records of the input, each
    at most as often as the input holds it (none is invented), and every
    returned record passes each active exact-match filter: its category,
    status and location equal the selected ones, and its status is not
    Normal when the only-non-normal flag is set. *)
Theorem filterAndSort_sound `{Platform} (items : list Item.t)
    (filters : Filters.t) (sort : Sort.t) :
  filterAndSort items filters sort ⊆+ items ∧
  ∀ i, i ∈ filterAndSort items filters sort →
    i ∈ items ∧
    (∀ c, Filters.category filters = Some c → c ≠ ALL → Item.category i = c) ∧
    (∀ s, Filters.status filters = Some (OnlyStatus s) → Item.status i = s) ∧
    (∀ l, Filters.location filters = Some l → l ≠ ALL → Item.location i = l) ∧
    (Filters.onlyLow filters = Some true → Item.status i ≠ Normal).
Proof.
  assert (Hsub : filterAndSort items filters sort ⊆+ items).
  { rewrite filterAndSort_Permutation.
    apply sublist_submseteq, filtered_sublist. }
  split; [done|]. intros i Hi.
  split; [by eapply elem_of_submseteq|].
  rewrite filterAndSort_Permutation in Hi.
  by apply filtered_elem_of in Hi as (_ & ?).
Qed.

Lemma filterAndSort_sound_witness :
  let it := Item.mk 1 "c" "n" 0 "u" Empty "l" None None in
  it ∈ [it] ∧ Item.status it ≠ Normal.
Proof.
  intros it.
  destruct (filterAndSort_sound (H:=codeUnitPlatform) [it]
              (Filters.mk None None None None (Some true))
              (Sort.mk K_id true)) as [_ Hall].
  destruct (Hall it) as (Hin & _ & _ & _ & Hlow).
  - vm_compute. left.
  - split; [exact Hin | by apply Hlow].
Defined.

(** ** Record store: quantity adjustment *)

Section AdjustQty.
Import InventoryApp.

Lemma adjustQty_items id delta now nowSave st :
  items (adjustQty id delta now nowSave st).1 =
  adjustQty_item (autoStatus st) (lowThreshold st) now id delta <$> items st.
Proof. done. Qed.

Lemma adjustQty_settings id delta now nowSave st :
  autoStatus (adjustQty id delta now nowSave st).1 = autoStatus st ∧
  lowThreshold (adjustQty id delta now nowSave st).1 = lowThreshold st.
Proof. done. Qed.

Lemma adjustQty_item_id auto low now id delta i :
  Item.id (adjustQty_item auto low now id delta i) = Item.id i.
Proof. unfold adjustQty_item. by case_match. Qed.

Lemma adjustQty_item_other auto low now id delta i :
  Item.id i ≠ id → adjustQty_item auto low now id delta i = i.
Proof.
  intros Hne. unfold adjustQty_item.
  destruct (Z.eqb_spec (Item.id i) id); done.
Qed.

Lemma adjustQty_item_qty auto low now delta i :
  Item.qty (adjustQty_item auto low now (Item.id i) delta i) =
  Z.max 0 (Item.qty i + delta).
Proof. unfold adjustQty_item. by rewrite Z.eqb_refl. Qed.

Lemma adjustQty_lookup id delta now nowSave st n i :
  items st !! n = Some i →
  items (adjustQty id delta now nowSave st).1 !! n =
  Some (adjustQty_item (autoStatus st) (lowThreshold st) now id delta i).
Proof. intros Hn. by rewrite adjustQty_items, list_lookup_fmap, Hn. Qed.

End AdjustQty.

(** C2. For every record of the store and every delta, adjusting the
    quantity of that record (by its id) leaves at its place a record whose
    quantity is [max(0, current + delta)], whose status is recomputed by
    the status rule with the current threshold when auto-status is enabled
    (and kept otherwise), whose [lastUpdated] is the fresh timestamp, and
    whose other fields are unchanged; a record at quantity 0 adjusted by
    -1 is at quantity 0. *)
Theorem adjustQty_spec (st : InventoryApp.State) (delta : Z)
    (now nowSave : string) (n : nat) (i : Item.t) :
  InventoryApp.items st !! n = Some i →
  ∃ i',
    InventoryApp.items
      (InventoryApp.adjustQty (Item.id i) delta now nowSave st).1 !! n = Some i' ∧
    Item.qty i' = Z.max 0 (Item.qty i + delta) ∧
    Item.status i' =
      (if InventoryApp.autoStatus st
       then computeStatus (Z.max 0 (Item.qty i + delta)) (InventoryApp.lowThreshold st)
       else Item.status i) ∧
    Item.lastUpdated i' = Some now ∧
    (Item.id i', Item.category i', Item.name i', Item.unit i',
     Item.location i', Item.checkedBy i') =
    (Item.id i, Item.category i, Item.name i, Item.unit i,
     Item.location i, Item.checkedBy i) ∧
    (Item.qty i = 0 → delta = -1 → Item.qty i' = 0).
Proof.
  intros Hn.
  eexists. split; [by apply adjustQty_lookup|].
  unfold InventoryApp.adjustQty_item. rewrite Z.eqb_refl. simpl.
  split_and!; try done.
  intros -> ->. done.
Qed.

Lemma adjustQty_spec_witness :
  let i := Item.mk 7 "c" "n" 0 "u" Empty "l" None None in
  let st := InventoryApp.mkState [i] [] true 1 false None [] "" in
  Item.qty <$>
    InventoryApp.items (InventoryApp.adjustQty 7 (-1) "t1" "t2" st).1 !! 0%nat
  = Some 0.
Proof.
  intros i st.
  destruct (adjustQty_spec st (-1) "t1" "t2" 0 i eq_refl)
    as (i' & Hi' & _ & _ & _ & _ & Hz).
  change (Item.id i) with 7 in Hi'. rewrite Hi'. simpl.
  f_equal. by apply Hz.
Defined.

(** Records with another id are left as they are. *)
Lemma adjustQty_other (st : InventoryApp.State) (id delta : Z)
    (now nowSave : string) (n : nat) (i : Item.t) :
  InventoryApp.items st !! n = Some i → Item.id i ≠ id →
  InventoryApp.items (InventoryApp.adjustQty id delta now nowSave st).1 !! n
  = Some i.
Proof.
  intros Hn Hne.
  rewrite adjustQty_items, list_lookup_fmap, Hn. simpl.
  by rewrite adjustQty_item_other.
Qed.

(** C10. Decrement is not undone by increment at zero: for a record of the
    store, adjusting by -1 and then by +1 leaves at its place a record of
    quantity [max(0, q - 1) + 1]; this is 1 when the record was at
    quantity 0, and it is the original quantity exactly when the original
    quantity was at least 1. *)
Theorem adjustQty_decrement_increment (st : InventoryApp.State)
    (now1 save1 now2 save2 : string) (n : nat) (i : Item.t) :
  InventoryApp.items st !! n = Some i →
  let st1 := (InventoryApp.adjustQty (Item.id i) (-1) now1 save1 st).1 in
  let st2 := (InventoryApp.adjustQty (Item.id i) 1 now2 save2 st1).1 in
  ∃ i2,
    InventoryApp.items st2 !! n = Some i2 ∧
    Item.qty i2 = Z.max 0 (Item.qty i - 1) + 1 ∧
    (Item.qty i = 0 → Item.qty i2 = 1 ∧ Item.qty i2 ≠ Item.qty i) ∧
    (Item.qty i2 = Item.qty i ↔ 1 ≤ Item.qty i).
Proof.
  intros Hn st1 st2.
  pose proof (adjustQty_lookup (Item.id i) (-1) now1 save1 st n i Hn) as H1.
  fold st1 in H1.
  pose proof (adjustQty_lookup (Item.id i) 1 now2 save2 st1 n _ H1) as H2.
  fold st2 in H2.
  eexists. split; [exact H2|].
  match goal with |- Item.qty ?x = _ ∧ _ =>
    assert (Hq : Item.qty x = Z.max 0 (Item.qty i - 1) + 1)
  end.
  { unfold InventoryApp.adjustQty_item at 1.
    rewrite adjustQty_item_id, Z.eqb_refl. simpl.
    rewrite adjustQty_item_qty. lia. }
  rewrite Hq. split_and!; lia.
Qed.

Lemma adjustQty_decrement_increment_witness :
  let i := Item.mk 7 "c" "n" 0 "u" Empty "l" None None in
  let st := InventoryApp.mkState [i] [] true 1 false None [] "" in
  let st1 := (InventoryApp.adjustQty 7 (-1) "t1" "t1" st).1 in
  let st2 := (InventoryApp.adjustQty 7 1 "t2" "t2" st1).1 in
  Item.qty <$> InventoryApp.items st2 !! 0%nat = Some 1.
Proof.
  intros i st st1 st2.
  destruct (adjustQty_decrement_increment st "t1" "t1" "t2" "t2" 0 i eq_refl)
    as (i2 & Hi2 & _ & Hz & _).
  change (Item.id i) with 7 in Hi2. subst st2 st1. rewrite Hi2. simpl.
  f_equal. by apply Hz.
Defined.

(** ** Merge engine: upserted records *)

Section MergeOne.
Import InventoryApp.

Lemma mergeOne_exists prev it :
  existsb (λ x, Item.id x =? Item.id it) (mergeOne prev it) = true.
Proof.
  unfold mergeOne.
  destruct (existsb _ prev) eqn:Hex.
  - apply existsb_exists in Hex as (x & Hx & Hid).
    apply existsb_exists. exists it. split; [|by rewrite Z.eqb_refl].
    apply list_elem_of_In, list_elem_of_fmap. exists x.
    split; [by rewrite Hid | by apply list_elem_of_In].
  - rewrite existsb_app. simpl. by rewrite Z.eqb_refl, orb_true_r.
Qed.

Lemma mergeOne_replace_fixed prev it :
  ((λ x, if Item.id x =? Item.id it then it else x) <$> mergeOne prev it)
  = mergeOne prev it.
Proof.
  unfold mergeOne.
  destruct (existsb _ prev) eqn:Hex.
  - rewrite <- list_fmap_compose. apply list_fmap_ext.
    intros _ x _. simpl.
    destruct (Item.id x =? Item.id it) eqn:Hx; [by rewrite Z.eqb_refl | by rewrite Hx].
  - rewrite fmap_app. simpl. rewrite Z.eqb_refl. f_equal.
    rewrite <- (list_fmap_id prev) at 2. apply list_fmap_ext.
    intros _ x Hx%list_elem_of_lookup_2. simpl.
    destruct (Item.id x =? Item.id it) eqn:Hid; [|done].
    assert (existsb (λ x, Item.id x =? Item.id it) prev = true); [|congruence].
    apply existsb_exists. exists x. by rewrite <- list_elem_of_In.
Qed.

Lemma mergeOne_idempotent prev it :
  mergeOne (mergeOne prev it) it = mergeOne prev it.
Proof.
  unfold mergeOne at 1. rewrite mergeOne_exists.
  apply mergeOne_replace_fixed.
Qed.

End MergeOne.

(** C3. For every record list and every "record upserted" payload, folding
    the event into the list twice in succession gives the list that
    folding it once gives; the same holds of the store after an INSERT
    event followed by the same INSERT or UPDATE event. *)
Theorem merge_upsert_idempotent `{Platform} (prev : list Item.t) (r : Row.t)
    (st : InventoryApp.State) :
  InventoryApp.mergeOne
    (InventoryApp.mergeOne prev (InventoryApp.rowToItem r))
    (InventoryApp.rowToItem r)
  = InventoryApp.mergeOne prev (InventoryApp.rowToItem r) ∧
  InventoryApp.run st [InventoryApp.ItemsInsert r; InventoryApp.ItemsInsert r]
  = InventoryApp.run st [InventoryApp.ItemsInsert r] ∧
  InventoryApp.run st [InventoryApp.ItemsInsert r; InventoryApp.ItemsUpdate r]
  = InventoryApp.run st [InventoryApp.ItemsInsert r] ∧
  InventoryApp.run st [InventoryApp.ItemsUpdate r; InventoryApp.ItemsUpdate r]
  = InventoryApp.run st [InventoryApp.ItemsUpdate r].
Proof.
  split; [apply mergeOne_idempotent|].
  unfold InventoryApp.run; simpl.
  unfold InventoryApp.setItems, InventoryApp.onItemsInsert,
    InventoryApp.onItemsUpdate; simpl.
  by rewrite mergeOne_idempotent.
Qed.

(** What one merge does: a record with the id of the payload is replaced
    by the payload as a whole; when there is none the payload is added at
    the end. *)
Lemma mergeOne_spec (prev : list Item.t) (it : Item.t) :
  (∀ x, x ∈ prev → Item.id x ≠ Item.id it) ∧
    InventoryApp.mergeOne prev it = (prev ++ [it])%list
  ∨ (∃ x, x ∈ prev ∧ Item.id x = Item.id it) ∧
    length (InventoryApp.mergeOne prev it) = length prev ∧
    ∀ n x, prev !! n = Some x →
      InventoryApp.mergeOne prev it !! n =
      Some (if bool_decide (Item.id x = Item.id it) then it else x).
Proof.
  unfold InventoryApp.mergeOne.
  destruct (existsb _ prev) eqn:Hex.
  - right. apply existsb_exists in Hex as (x & Hx%list_elem_of_In & Hid%Z.eqb_eq).
    split; [by exists x|]. split; [by rewrite length_fmap|].
    intros n y Hn. rewrite list_lookup_fmap, Hn. simpl.
    by destruct (Z.eqb_spec (Item.id y) (Item.id it));
      [rewrite bool_decide_true | rewrite bool_decide_false].
  - left. split; [|done]. intros x Hx Hid.
    assert (existsb (λ x, Item.id x =? Item.id it) prev = true); [|congruence].
    apply existsb_exists. exists x.
    split; [by apply list_elem_of_In | by apply Z.eqb_eq].
Qed.

(** ** Checker roster: adding a member *)

Section AddMember.
Import InventoryApp.
Context `{Platform}.

(** Names equal up to ASCII case have the same lower-case form. *)
Lemma sameName_toLowerCase (a b : string) :
  sameNameIgnoringCase a b → toLowerCase a = toLowerCase b.
Proof.
  unfold sameNameIgnoringCase. intros Heq.
  by rewrite <- (toLowerCase_ascii a), Heq, toLowerCase_ascii.
Qed.

Lemma some_toLowerCase_true (checkers : list string) (name : string) :
  existsb (λ c, bool_decide (toLowerCase c = toLowerCase name)) checkers
  = true ↔ ∃ c, c ∈ checkers ∧ toLowerCase c = toLowerCase name.
Proof.
  rewrite existsb_exists.
  split; intros (c & Hc & Heq); exists c.
  - split; [by apply list_elem_of_In | by apply bool_decide_eq_true in Heq].
  - split; [by apply list_elem_of_In | by apply bool_decide_eq_true].
Qed.

Lemma some_sameName_true (checkers : list string) (name : string) :
  (∃ c, c ∈ checkers ∧ sameNameIgnoringCase c name) →
  existsb (λ c, bool_decide (toLowerCase c = toLowerCase name)) checkers
  = true.
Proof.
  intros (c & Hc & Hsame). apply some_toLowerCase_true.
  exists c. split; [done|]. by apply sameName_toLowerCase.
Qed.

End AddMember.

Example addMember_Ann_Bo_ann dbOk :
  let st := InventoryApp.mkState [] ["Ann"; "Bo"] true 1 false None [] "ann" in
  InventoryApp.addMember (H:=codeUnitPlatform) dbOk st
  = (st, [Alert "มีชื่อนี้อยู่แล้ว"]) ∧
  InventoryApp.checkers (InventoryApp.addMember (H:=codeUnitPlatform) dbOk st).1
  = ["Ann"; "Bo"].
Proof. done. Qed.

(** C5, as it holds of the code.  For every roster and every typed name
    that, once trimmed by [trim()], is not empty and equals a name of the
    roster up to ASCII case, [addMember] shows the message
    "มีชื่อนี้อยู่แล้ว", issues no database call and leaves the whole state,
    the roster included, as it was; with roster ["Ann","Bo"], adding "ann"
    is rejected and the roster stays ["Ann","Bo"].  The same holds, more
    generally, when the two names have the same [toLowerCase()] form. *)
Theorem addMember_duplicate_rejected `{Platform} (dbOk : bool)
    (st : InventoryApp.State) (c : string) :
  c ∈ InventoryApp.checkers st →
  trim (InventoryApp.newMember st) ≠ "" →
  sameNameIgnoringCase c (trim (InventoryApp.newMember st))
  ∨ toLowerCase c = toLowerCase (trim (InventoryApp.newMember st)) →
  InventoryApp.addMember dbOk st = (st, [Alert "มีชื่อนี้อยู่แล้ว"]) ∧
  InventoryApp.checkers (InventoryApp.addMember dbOk st).1
  = InventoryApp.checkers st.
Proof.
  intros Hc Hne Hsame.
  assert (Hlower : toLowerCase c = toLowerCase (trim (InventoryApp.newMember st))).
  { destruct Hsame as [Hsame|?]; [by apply sameName_toLowerCase | done]. }
  assert (InventoryApp.addMember dbOk st = (st, [Alert "มีชื่อนี้อยู่แล้ว"])) as ->.
  { unfold InventoryApp.addMember.
    rewrite bool_decide_false by done.
    by rewrite (proj2 (some_toLowerCase_true _ _)) by eauto. }
  done.
Qed.

Lemma addMember_duplicate_rejected_witness :
  let st := InventoryApp.mkState [] ["Ann"; "Bo"] true 1 false None [] " ann " in
  InventoryApp.checkers (InventoryApp.addMember (H:=codeUnitPlatform) true st).1
  = ["Ann"; "Bo"] ∧
  (InventoryApp.addMember (H:=codeUnitPlatform) true st).2
  = [Alert "มีชื่อนี้อยู่แล้ว"].
Proof.
  intros st.
  destruct (addMember_duplicate_rejected (H:=codeUnitPlatform) true st "Ann")
    as [Heq Hroster].
  - vm_compute. left.
  - vm_compute. discriminate.
  - left. vm_compute. reflexivity.
  - split; [exact Hroster | by rewrite Heq].
Defined.

(** Counterexample to C5 as the specification states it, on two kinds of
    input.  The typed name " ann" equals the roster name " Ann" up to ASCII
    case, yet it is trimmed before the comparison and "ann" is added.  The
    empty name equals the roster name "" exactly, and is dropped without
    any message.  The names are ASCII, so that the [toLowerCase] and
    [trim] of [codeUnitPlatform] are those of every host. *)
Lemma addMember_duplicate_counterexample :
  (let st := InventoryApp.mkState [] [" Ann"] true 1 false None [] " ann" in
   let out := InventoryApp.addMember (H:=codeUnitPlatform) true st in
   " Ann" ∈ InventoryApp.checkers st ∧
   sameNameIgnoringCase " Ann" (InventoryApp.newMember st) ∧
   out.2 = [DbSetCheckers [" Ann"; "ann"]] ∧
   InventoryApp.checkers out.1 = [" Ann"; "ann"] ∧
   InventoryApp.checkers out.1 ≠ InventoryApp.checkers st) ∧
  (let st := InventoryApp.mkState [] [""] true 1 false None [] "" in
   let out := InventoryApp.addMember (H:=codeUnitPlatform) true st in
   "" ∈ InventoryApp.checkers st ∧
   sameNameIgnoringCase "" (InventoryApp.newMember st) ∧
   out = (st, []) ∧
   ¬ ∃ msg, Alert msg ∈ out.2).
Proof.
  split; simpl.
  - split_and!; [left | done | done | done | discriminate].
  - split_and!; [left | done | done |].
    intros (msg & Hmsg). vm_compute in Hmsg. by apply elem_of_nil in Hmsg.
Qed.

(** ** The quantity invariant *)

Section QuantityInvariant.
Import InventoryApp.

Lemma nonNegative_adjustQty auto low now id delta l :
  nonNegative l → nonNegative (adjustQty_item auto low now id delta <$> l).
Proof.
  unfold nonNegative. intros Hl. apply Forall_fmap.
  eapply Forall_impl; [exact Hl|]. intros i Hi. simpl.
  unfold adjustQty_item. case_match; simpl in *; lia.
Qed.

Lemma nonNegative_replace (updated : Item.t) l :
  0 ≤ Item.qty updated → nonNegative l →
  nonNegative ((λ i, if Item.id i =? Item.id updated then updated else i) <$> l).
Proof.
  unfold nonNegative. intros Hu Hl. apply Forall_fmap.
  eapply Forall_impl; [exact Hl|]. intros i Hi. simpl in *. by case_match.
Qed.

Lemma nonNegative_filter (P : Item.t → Prop) `{∀ i, Decision (P i)} l :
  nonNegative l → nonNegative (filter P l).
Proof.
  unfold nonNegative. rewrite !Forall_forall.
  intros Hl i [_ Hi]%list_elem_of_filter. by apply Hl.
Qed.

Lemma nonNegative_mergeOne prev it :
  0 ≤ Item.qty it → nonNegative prev → nonNegative (mergeOne prev it).
Proof.
  intros Hit Hprev. unfold mergeOne. case_match.
  - by apply nonNegative_replace.
  - apply Forall_app. split; [done|]. by constructor.
Qed.

Lemma nonNegative_mergeOne_inv prev it :
  nonNegative (mergeOne prev it) → 0 ≤ Item.qty it.
Proof.
  intros Hm.
  pose proof (mergeOne_exists prev it) as (x & Hx%list_elem_of_In & Hid)%existsb_exists.
  unfold nonNegative in Hm. rewrite Forall_forall in Hm.
  rewrite <- mergeOne_replace_fixed in Hx.
  apply list_elem_of_fmap in Hx as (y & -> & Hy).
  apply Hm in Hy as Hqy.
  destruct (Item.id y =? Item.id it) eqn:Hyid.
  - assert (Hit : it ∈ mergeOne prev it).
    { rewrite <- mergeOne_replace_fixed. apply list_elem_of_fmap.
      exists y. by rewrite Hyid. }
    by apply Hm in Hit.
  - congruence.
Qed.

End QuantityInvariant.

(** C6, as it holds of the code.  In a store whose records all have a
    non-negative quantity, they still have one after a quantity adjustment
    and after a delete (local or remote), whatever the arguments; after a
    checker confirmation when the copy of the record held by the
    quick-check modal has a non-negative quantity; and after folding a
    remote INSERT or UPDATE event when the row it carries has a
    non-negative quantity.  The copy held by the modal is non-negative
    whenever the modal was opened on a record of such a store, so that
    records and copy stay non-negative along every sequence of events
    whose remote rows are non-negative. *)
Theorem quantity_invariant_preserved `{Platform} (st : InventoryApp.State) :
  nonNegative (InventoryApp.items st) →
  (∀ id delta now nowSave,
     nonNegative
       (InventoryApp.items (InventoryApp.adjustQty id delta now nowSave st).1)) ∧
  (∀ id confirmed dbOk,
     nonNegative
       (InventoryApp.items (InventoryApp.remove id confirmed dbOk st).1)) ∧
  (∀ id,
     nonNegative
       (InventoryApp.items (InventoryApp.step st (InventoryApp.ItemsDelete id)).1)) ∧
  (∀ now dbOk,
     (∀ target, InventoryApp.checkTarget st = Some target → 0 ≤ Item.qty target) →
     nonNegative
       (InventoryApp.items (InventoryApp.confirmQuickCheck now dbOk st).1)) ∧
  (∀ r, 0 ≤ Row.qty r →
     nonNegative
       (InventoryApp.items (InventoryApp.step st (InventoryApp.ItemsInsert r)).1) ∧
     nonNegative
       (InventoryApp.items (InventoryApp.step st (InventoryApp.ItemsUpdate r)).1)) ∧
  ((∀ target, InventoryApp.checkTarget st = Some target → 0 ≤ Item.qty target) →
   (∀ e, Invariant.admissible st e →
         Invariant.holds (InventoryApp.step st e).1) ∧
   (∀ es, Invariant.admissible_run st es →
          Invariant.holds (InventoryApp.run st es))).
Proof.
  assert (Hstep : ∀ st e,
            Invariant.holds st → Invariant.admissible st e →
            Invariant.holds (InventoryApp.step st e).1).
  { clear st. intros st e.
    intros Hst Hadm. pose proof Hst as [Hitems Htarget].
    destruct e; simpl in *; try exact Hst; try (split; done).
    - (* adjustQty *)
      split; [|done]. by apply nonNegative_adjustQty.
    - (* openQuickCheck *)
      split; [done|]. intros target [= <-].
      unfold nonNegative in Hitems. rewrite Forall_forall in Hitems. by apply Hitems.
    - (* confirmQuickCheck *)
      unfold InventoryApp.confirmQuickCheck.
      destruct (InventoryApp.checkTarget st) as [target|] eqn:Ht; [|exact Hst].
      destruct dbOk; [|exact Hst].
      split; [|done]. apply nonNegative_replace; [|done]. simpl. by apply Htarget.
    - (* addMember *)
      unfold InventoryApp.addMember. repeat case_match; exact Hst.
    - (* removeMember *)
      unfold InventoryApp.removeMember. repeat case_match; exact Hst.
    - (* remove *)
      unfold InventoryApp.remove. repeat case_match; try exact Hst.
      split; [|done]. by apply nonNegative_filter.
    - (* INSERT on items *)
      split; [|done]. by apply nonNegative_mergeOne.
    - (* UPDATE on items *)
      split; [|done]. by apply nonNegative_mergeOne.
    - (* DELETE on items *)
      split; [|done]. by apply nonNegative_filter.
  }
  intros Hitems. split_and!.
  - intros id delta now nowSave. simpl. by apply nonNegative_adjustQty.
  - intros id confirmed dbOk. unfold InventoryApp.remove.
    repeat case_match; try exact Hitems. simpl. by apply nonNegative_filter.
  - intros id. simpl. by apply nonNegative_filter.
  - intros now dbOk Htarget. unfold InventoryApp.confirmQuickCheck.
    destruct (InventoryApp.checkTarget st) as [target|] eqn:Ht; [|exact Hitems].
    destruct dbOk; [|exact Hitems].
    apply nonNegative_replace; [|done]. simpl. by apply Htarget.
  - intros r Hr. split; simpl; by apply nonNegative_mergeOne.
  - intros Htarget.
    assert (Hst : Invariant.holds st) by (by split).
    clear Hitems Htarget.
    split; [intros e He; by apply Hstep|].
    intros es. revert st Hst.
    induction es as [|e es IH]; intros st Hst Hes; [done|].
    destruct Hes as [He Hes]. apply IH; [|done]. by apply Hstep.
Qed.

Lemma quantity_invariant_preserved_witness :
  let i := Item.mk 7 "c" "n" 0 "u" Empty "l" None None in
  let i' := Item.mk 7 "c" "n" 0 "u" Empty "l" None (Some "t") in
  let r := Row.mk 7 "c" "n" 3 "u" Normal "l" None None in
  let st := InventoryApp.mkState [i] [] true 1 false None [] "" in
  let st' := InventoryApp.mkState [i] [] true 1 true (Some i') [] "" in
  nonNegative
    (InventoryApp.items (InventoryApp.adjustQty 7 (-1) "t" "t" st).1) ∧
  nonNegative
    (InventoryApp.items (InventoryApp.confirmQuickCheck "u" true st').1) ∧
  Invariant.holds
    (InventoryApp.step (H:=codeUnitPlatform) st (InventoryApp.ItemsUpdate r)).1 ∧
  Invariant.holds
    (InventoryApp.run (H:=codeUnitPlatform) st
       [InventoryApp.AdjustQty 7 (-1) "t" "t"; InventoryApp.OpenQuickCheck i';
        InventoryApp.ConfirmQuickCheck "u" true; InventoryApp.Remove 7 true true]).
Proof.
  intros i i' r st st'.
  assert (Hst : nonNegative (InventoryApp.items st)).
  { repeat constructor. simpl. lia. }
  assert (Hst' : nonNegative (InventoryApp.items st')) by exact Hst.
  destruct (quantity_invariant_preserved (H:=codeUnitPlatform) st Hst)
    as (Hadj & _ & _ & _ & _ & Hall).
  destruct (quantity_invariant_preserved (H:=codeUnitPlatform) st' Hst')
    as (_ & _ & _ & Hconfirm & _ & _).
  destruct Hall as [Hstep Hrun]; [done|].
  split_and!.
  - apply Hadj.
  - apply Hconfirm. intros target [= <-]. simpl. lia.
  - apply Hstep. simpl. lia.
  - apply Hrun. simpl. split_and!; try done. vm_compute. left.
Defined.

(** Counterexample to C6 as the specification states it.  A remote INSERT
    event whose row carries the quantity -1 is folded into the store as it
    is.  And a checker confirmation writes back the copy of the record the
    quick-check modal holds: when that copy has the quantity -1 and the
    record of the store has meanwhile been replaced by one of quantity 3,
    the confirmation turns a store whose records are all non-negative into
    one with the quantity -1. *)
Lemma merge_negative_quantity_counterexample :
  let r := Row.mk 7 "c" "n" (-1) "u" Normal "l" None None in
  let r3 := Row.mk 7 "c" "n" 3 "u" Normal "l" None None in
  let st := InventoryApp.mkState [] [] true 1 false None [] "" in
  let opened :=
    InventoryApp.run (H:=codeUnitPlatform) st
      [InventoryApp.ItemsInsert r;
       InventoryApp.OpenQuickCheck (InventoryApp.rowToItem r);
       InventoryApp.ItemsUpdate r3] in
  (Invariant.holds st ∧
   Item.qty <$> InventoryApp.items
                  (InventoryApp.step (H:=codeUnitPlatform) st
                     (InventoryApp.ItemsInsert r)).1 = [-1] ∧
   ¬ nonNegative
       (InventoryApp.items
          (InventoryApp.step (H:=codeUnitPlatform) st
             (InventoryApp.ItemsInsert r)).1)) ∧
  (Item.qty <$> InventoryApp.items opened = [3] ∧
   nonNegative (InventoryApp.items opened) ∧
   Item.qty <$> InventoryApp.checkTarget opened = Some (-1) ∧
   Item.qty <$> InventoryApp.items
                  (InventoryApp.confirmQuickCheck "t" true opened).1 = [-1] ∧
   ¬ nonNegative
       (InventoryApp.items (InventoryApp.confirmQuickCheck "t" true opened).1)).
Proof.
  split; split_and!.
  - split; [constructor | done].
  - done.
  - intros Hnn. apply nonNegative_mergeOne_inv in Hnn. simpl in Hnn. lia.
  - done.
  - repeat constructor. simpl. lia.
  - done.
  - done.
  - intros Hnn. vm_compute in Hnn. apply Forall_cons_1 in Hnn as [Hneg _].
    by apply Hneg.
Qed.

(** ** Merge engine: the roster *)

Section SetFacts.

Lemma Set_add_elem_of s x y : y ∈ Set_add s x ↔ y ∈ s ∨ y = x.
Proof.
  unfold Set_add. case_bool_decide.
  - split; [by left | by intros [?| ->]].
  - by rewrite elem_of_app, list_elem_of_singleton.
Qed.

Lemma Set_add_NoDup s x : NoDup s → NoDup (Set_add s x).
Proof.
  intros Hs. unfold Set_add. case_bool_decide; [done|].
  apply NoDup_app. split_and!; [done| |apply NoDup_singleton].
  by intros y Hy ->%list_elem_of_singleton.
Qed.

Lemma foldl_Set_add_elem_of l acc y :
  y ∈ foldl Set_add acc l ↔ y ∈ acc ∨ y ∈ l.
Proof.
  revert acc. induction l as [|x l IH]; intros acc; simpl.
  - rewrite elem_of_nil. tauto.
  - rewrite IH, Set_add_elem_of, elem_of_cons. tauto.
Qed.

Lemma foldl_Set_add_NoDup l acc : NoDup acc → NoDup (foldl Set_add acc l).
Proof.
  revert acc. induction l as [|x l IH]; intros acc Hacc; simpl; [done|].
  by apply IH, Set_add_NoDup.
Qed.

Lemma foldl_Set_add_fresh l acc :
  NoDup (acc ++ l) → foldl Set_add acc l = acc ++ l.
Proof.
  revert acc. induction l as [|x l IH]; intros acc Hnd; simpl.
  - by rewrite app_nil_r.
  - assert (Hx : x ∉ acc).
    { apply NoDup_app in Hnd as (_ & Hdisj & _).
      intros Hx. apply (Hdisj x Hx). left. }
    unfold Set_add at 2. rewrite bool_decide_false by done.
    rewrite IH; rewrite <- (assoc_L (++)); done.
Qed.

Lemma Set_new_elem_of l y : y ∈ Set_new l ↔ y ∈ l.
Proof.
  unfold Set_new. rewrite foldl_Set_add_elem_of, elem_of_nil. tauto.
Qed.

Lemma Set_new_NoDup l : NoDup (Set_new l).
Proof. apply foldl_Set_add_NoDup, NoDup_nil_2. Qed.

Lemma Set_new_fresh l : NoDup l → Set_new l = l.
Proof. intros Hl. by apply (foldl_Set_add_fresh l []). Qed.

Lemma Set_new_snoc l x : Set_new (l ++ [x]) = Set_add (Set_new l) x.
Proof. apply foldl_snoc. Qed.

End SetFacts.

Example onCheckersInsert_Ann_ann :
  InventoryApp.onCheckersInsert "ann" ["Ann"; "Bo"] = ["Ann"; "Bo"; "ann"] ∧
  InventoryApp.onCheckersInsert "Ann" ["Ann"; "Bo"] = ["Ann"; "Bo"].
Proof. done. Qed.

(** C7. For every local roster and every "checker added" event, the
    roster after the event holds exactly the names of the roster before it
    and the name of the event, each once: the name is appended when no
    name of the roster is the very same string, and is not added when one
    is.  The comparison is case-sensitive: a name that differs from every
    name of the roster, be it in letter case only, is appended. *)
Theorem onCheckersInsert_union (prev : list string) (name : string) :
  (∀ x, x ∈ InventoryApp.onCheckersInsert name prev ↔ x ∈ prev ∨ x = name) ∧
  NoDup (InventoryApp.onCheckersInsert name prev) ∧
  InventoryApp.onCheckersInsert name prev
  = (Set_new prev ++ if bool_decide (name ∈ prev) then [] else [name])%list ∧
  (NoDup prev →
   InventoryApp.onCheckersInsert name prev
   = if bool_decide (name ∈ prev) then prev else (prev ++ [name])%list) ∧
  (∀ c, c ∈ prev → sameNameIgnoringCase c name → name ∉ prev →
   NoDup prev →
   InventoryApp.onCheckersInsert name prev = (prev ++ [name])%list).
Proof.
  unfold InventoryApp.onCheckersInsert, Array_from.
  assert (Heq : Set_new (prev ++ [name])
                = (Set_new prev ++ if bool_decide (name ∈ prev) then [] else [name])%list).
  { rewrite Set_new_snoc. unfold Set_add.
    rewrite (bool_decide_ext _ (name ∈ prev)) by apply Set_new_elem_of.
    case_bool_decide; by rewrite ?app_nil_r. }
  split_and!.
  - intros x. rewrite Set_new_elem_of, elem_of_app, list_elem_of_singleton. tauto.
  - apply Set_new_NoDup.
  - exact Heq.
  - intros Hnd. rewrite Heq, Set_new_fresh by done.
    case_bool_decide; by rewrite ?app_nil_r.
  - intros c _ _ Hname Hnd. rewrite Heq, Set_new_fresh by done.
    by rewrite bool_decide_false.
Qed.

Lemma onCheckersInsert_union_witness :
  InventoryApp.onCheckersInsert "ann" ["Ann"; "Bo"] = ["Ann"; "Bo"; "ann"].
Proof.
  destruct (onCheckersInsert_union ["Ann"; "Bo"] "ann") as (_ & _ & _ & _ & Hcase).
  apply (Hcase "Ann").
  - left.
  - reflexivity.
  - vm_compute. intros Hin.
    repeat (apply elem_of_cons in Hin as [Hin|Hin]; [discriminate|]).
    by apply elem_of_nil in Hin.
  - repeat (apply NoDup_cons; split;
            [rewrite ?elem_of_cons, elem_of_nil; intros ?; destruct_or?; done|]).
    apply NoDup_nil_2.
Defined.

(** ** Query engine: sorting by quantity *)

Section SortByQuantity.
Context `{Platform}.

Lemma cmp_qty a b asc :
  cmp K_qty asc a b =
  if asc then Item.qty a - Item.qty b else - (Item.qty a - Item.qty b).
Proof. done. Qed.

Lemma cmp_qty_total asc a b :
  cmp K_qty asc a b ≤ 0 ∨ cmp K_qty asc b a ≤ 0.
Proof. rewrite !cmp_qty. destruct asc; lia. Qed.

Lemma cmp_qty_transitive asc : Transitive (cmp_le (cmp K_qty asc)).
Proof. intros a b c. unfold cmp_le. rewrite !cmp_qty. destruct asc; lia. Qed.

Lemma Sorted_weaken {A} (R R' : relation A) l :
  (∀ a b, R a b → R' a b) → Sorted R l → Sorted R' l.
Proof.
  intros HR. induction 1 as [|x l Hl IH Hx]; constructor; [done|].
  destruct Hx; constructor; auto.
Qed.

Lemma NoDup_fmap_elem_inj {A B} (f : A → B) (l : list A) x y :
  NoDup (f <$> l) → x ∈ l → y ∈ l → f x = f y → x = y.
Proof.
  intros Hnd (i & Hi)%list_elem_of_lookup (j & Hj)%list_elem_of_lookup Hf.
  assert (i = j) as ->; [|congruence].
  apply (NoDup_lookup (f <$> l) i j (f x)); [done| |];
    rewrite list_lookup_fmap; [by rewrite Hi | by rewrite Hj, Hf].
Qed.

(** Sorting by distinct quantities has one possible result: any sorted
    rearrangement of the list is the one [Array_sort] returns. *)
Lemma Array_sort_qty_unique asc (l l' : list Item.t) :
  NoDup (Item.qty <$> l) →
  l' ≡ₚ l → Sorted (cmp_le (cmp K_qty asc)) l' →
  l' = Array_sort (cmp K_qty asc) l.
Proof.
  intros Hnd Hperm Hsorted. pose proof (cmp_qty_transitive asc) as Htrans.
  apply (Sorted_unique_strong (cmp_le (cmp K_qty asc))); [|done| |].
  - intros a b Ha Hb Hab Hba.
    rewrite Hperm in Ha. rewrite Array_sort_elem_of in Hb.
    apply (NoDup_fmap_elem_inj Item.qty l); [done..|].
    unfold cmp_le in *. rewrite cmp_qty in *. destruct asc; lia.
  - apply Array_sort_Sorted, cmp_qty_total.
  - by rewrite Array_sort_Permutation.
Qed.

Lemma Array_sort_qty_desc_reverse (l : list Item.t) :
  NoDup (Item.qty <$> l) →
  Array_sort (cmp K_qty false) l = reverse (Array_sort (cmp K_qty true) l).
Proof.
  intros Hnd. symmetry. apply Array_sort_qty_unique; [done| |].
  - by rewrite reverse_Permutation, Array_sort_Permutation.
  - eapply Sorted_weaken; [|apply Sorted_reverse, Array_sort_Sorted, cmp_qty_total].
    intros a b. unfold flip, cmp_le. rewrite !cmp_qty. lia.
Qed.

End SortByQuantity.

(** C8. For every collection whose records have pairwise distinct
    quantities, and whatever the filters, the view sorted by quantity in
    descending order is exactly the reverse of the view sorted by quantity
    in ascending order. *)
Theorem filterAndSort_qty_desc_reverse `{Platform} (items : list Item.t)
    (filters : Filters.t) :
  NoDup (Item.qty <$> items) →
  filterAndSort items filters (Sort.mk K_qty false)
  = reverse (filterAndSort items filters (Sort.mk K_qty true)).
Proof.
  intros Hnd. unfold filterAndSort. simpl.
  apply Array_sort_qty_desc_reverse.
  eapply sublist_NoDup; [exact Hnd | apply fmap_sublist, filtered_sublist].
Qed.

Lemma filterAndSort_qty_desc_reverse_witness :
  let it (i q : Z) := Item.mk i "c" "n" q "u" Normal "l" None None in
  Item.id <$> filterAndSort (H:=codeUnitPlatform) [it 1 5; it 2 0; it 3 9]
                Filters.none (Sort.mk K_qty false)
  = [3; 1; 2].
Proof.
  intros it.
  rewrite (filterAndSort_qty_desc_reverse (H:=codeUnitPlatform)).
  - reflexivity.
  - vm_compute.
    repeat (apply NoDup_cons; split;
            [rewrite ?elem_of_cons, elem_of_nil; intros ?; destruct_or?; done|]).
    apply NoDup_nil_2.
Defined.

(** ** Query engine: the input array is left alone *)

Section StoreFacts.

Lemma bind_Some {X Y} (m : M X) (k : X → M Y) h x h' :
  m h = Some (x, h') → (m ≫= k) h = k x h'.
Proof. intros Hm. unfold mbind, M_bind. by rewrite Hm. Qed.

Lemma alloc_spec v (h : store) :
  ∃ r, alloc v h = Some (r, <[r := v]> h) ∧ h !! r = None.
Proof.
  exists (fresh (dom h)). split; [done|].
  apply not_elem_of_dom, is_fresh.
Qed.

Lemma Array_filter_ref_spec a (p : Item.t → Prop) `{∀ i, Decision (p i)}
    (h : store) v :
  h !! a = Some v →
  ∃ r, Array_filter_ref a p h = Some (r, <[r := filter p v]> h) ∧ h !! r = None.
Proof.
  intros Ha. destruct (alloc_spec (filter p v) h) as (r & Hr & Hfresh).
  exists r. split; [|done].
  unfold Array_filter_ref. erewrite bind_Some; [exact Hr|].
  unfold read. by rewrite Ha.
Qed.

(** A filter that runs only when its condition holds. *)
Lemma Array_filter_ref_if (b : bool) a (p : Item.t → Prop)
    `{∀ i, Decision (p i)} (h : store) v :
  h !! a = Some v →
  ∃ r h', (if b then Array_filter_ref a p else mret a) h = Some (r, h') ∧
          h ⊆ h' ∧ h' !! r = Some (if b then filter p v else v).
Proof.
  intros Ha. destruct b.
  - destruct (Array_filter_ref_spec a p h v Ha) as (r & Hr & Hfresh).
    exists r, (<[r := filter p v]> h).
    split_and!; [done | by apply insert_subseteq | by rewrite lookup_insert_eq].
  - by exists a, h.
Qed.

Lemma Array_spread_ref_spec a (h : store) v :
  h !! a = Some v →
  ∃ r, Array_spread_ref a h = Some (r, <[r := v]> h) ∧ h !! r = None.
Proof.
  intros Ha. destruct (alloc_spec v h) as (r & Hr & Hfresh).
  exists r. split; [|done].
  unfold Array_spread_ref. erewrite bind_Some; [exact Hr|].
  unfold read. by rewrite Ha.
Qed.

Lemma Array_sort_ref_spec a cmp (h : store) v :
  h !! a = Some v →
  Array_sort_ref a cmp h = Some (a, <[a := Array_sort cmp v]> h).
Proof.
  intros Ha. unfold Array_sort_ref.
  erewrite bind_Some; [|unfold read; by rewrite Ha].
  erewrite bind_Some; [done|]. unfold write. by rewrite Ha.
Qed.

(** [sort] does overwrite the array it is called on. *)
Example Array_sort_ref_in_place :
  let a := Item.mk 1 "c" "n" 5 "u" Normal "l" None None in
  let b := Item.mk 2 "c" "n" 0 "u" Empty "l" None None in
  let h : store := {[ 1%positive := [a; b] ]} in
  (λ rh, rh.2 !! 1%positive)
    <$> Array_sort_ref 1%positive (cmp (H:=codeUnitPlatform) K_qty true) h
  = Some (Some [b; a]).
Proof. vm_compute. reflexivity. Qed.

End StoreFacts.

(** C9. For every store, every input array, every filter set and every
    sort, [filterAndSort] returns a reference to an array that did not
    exist before the call and that holds the view; after the call the
    input array holds the records it held before, in the same order, and
    so does every other array that existed before the call. *)
Theorem filterAndSort_ref_frame `{Platform} (h : store) (items : ref)
    (v : list Item.t) (filters : Filters.t) (sort : Sort.t) :
  h !! items = Some v →
  ∃ (out : ref) (h' : store),
    filterAndSort_ref items filters sort h = Some (out, h') ∧
    h' !! items = Some v ∧
    out ≠ items ∧
    h !! out = None ∧
    h' !! out = Some (filterAndSort v filters sort) ∧
    ∀ r, is_Some (h !! r) → h' !! r = h !! r.
Proof.
  intros Hitems. unfold filterAndSort_ref.
  set (q := toLowerCase (default "" (Filters.q filters))).
  destruct (Array_filter_ref_spec items (λ i, matchesQuery q i) h v Hitems)
    as (r0 & E0 & F0).
  erewrite bind_Some; [|exact E0].
  set (h1 := <[r0 := filter (λ i, matchesQuery q i) v]> h) in *.
  assert (S0 : h ⊆ h1) by by apply insert_subseteq.
  assert (L0 : h1 !! r0 = Some (filter (λ i, matchesQuery q i) v))
    by apply lookup_insert_eq.
  edestruct (Array_filter_ref_if
               (bool_decide (default ALL (Filters.category filters) ≠ ALL)) r0
               (λ i, Some (Item.category i) = Filters.category filters))
    as (r1 & h2 & E1 & S1 & L1); [exact L0|].
  erewrite bind_Some; [|exact E1].
  edestruct (Array_filter_ref_if
               (bool_decide (default AllStatuses (Filters.status filters) ≠ AllStatuses)) r1
               (λ i, Some (OnlyStatus (Item.status i)) = Filters.status filters))
    as (r2 & h3 & E2 & S2 & L2); [exact L1|].
  erewrite bind_Some; [|exact E2].
  edestruct (Array_filter_ref_if
               (bool_decide (default ALL (Filters.location filters) ≠ ALL)) r2
               (λ i, Some (Item.location i) = Filters.location filters))
    as (r3 & h4 & E3 & S3 & L3); [exact L2|].
  erewrite bind_Some; [|exact E3].
  edestruct (Array_filter_ref_if
               (default false (Filters.onlyLow filters)) r3
               (λ i, Item.status i ≠ Normal))
    as (r4 & h5 & E4 & S4 & L4); [exact L3|].
  erewrite bind_Some; [|exact E4].
  destruct (Array_spread_ref_spec r4 h5 _ L4) as (c & E5 & F5).
  erewrite bind_Some; [|exact E5].
  erewrite Array_sort_ref_spec; [|apply lookup_insert_eq].
  assert (S : h ⊆ h5) by (do 4 (etrans; [eassumption|]); done).
  assert (Fc : h !! c = None) by by eapply lookup_weaken_None.
  assert (Hc : c ≠ items) by congruence.
  eexists _, _. split_and!; [done| |done|done| |].
  - rewrite !lookup_insert_ne by done. by eapply lookup_weaken.
  - by rewrite lookup_insert_eq.
  - intros r [w Hr].
    assert (r ≠ c) by congruence.
    rewrite !lookup_insert_ne by done. rewrite Hr. by eapply lookup_weaken.
Qed.

Lemma filterAndSort_ref_frame_witness :
  let a := Item.mk 1 "c" "n" 5 "u" Normal "l" None None in
  let b := Item.mk 2 "c" "n" 0 "u" Empty "l" None None in
  let h : store := {[ 1%positive := [a; b] ]} in
  ∃ out h',
    filterAndSort_ref (H:=codeUnitPlatform) 1%positive Filters.none
      (Sort.mk K_qty true) h = Some (out, h') ∧
    h' !! 1%positive = Some [a; b] ∧
    h' !! out = Some [b; a].
Proof.
  intros a b h.
  destruct (filterAndSort_ref_frame (H:=codeUnitPlatform) h 1%positive [a; b]
              Filters.none (Sort.mk K_qty true) eq_refl)
    as (out & h' & Hrun & Hin & _ & _ & Hout & _).
  exists out, h'. split_and!; [exact Hrun | exact Hin | exact Hout].
Defined.

(** * Further properties *)

(** ** [nextId] *)

Lemma foldl_max_le x xs : x ≤ foldl Z.max x xs.
Proof.
  revert x. induction xs as [|y xs IH]; intros x; simpl; [lia|].
  etrans; [|apply IH]. lia.
Qed.

Lemma foldl_max_ge_elem x xs y : y ∈ xs → y ≤ foldl Z.max x xs.
Proof.
  revert x. induction xs as [|z xs IH]; intros x Hy; simpl.
  - by apply elem_of_nil in Hy.
  - apply elem_of_cons in Hy as [->|Hy]; [|by apply IH].
    etrans; [|apply foldl_max_le]. lia.
Qed.

Lemma nextId_gt items i : i ∈ items → Item.id i < nextId items.
Proof.
  intros Hi. unfold nextId.
  assert (Hid : Item.id i ∈ Item.id <$> items)
    by (apply list_elem_of_fmap; eauto).
  destruct (Item.id <$> items) as [|x xs]; [by apply elem_of_nil in Hid|].
  apply elem_of_cons in Hid as [->|Hid].
  - pose proof (foldl_max_le x xs). lia.
  - pose proof (foldl_max_ge_elem x xs _ Hid). lia.
Qed.

(** X1. The id [nextId] computes is greater than the id of every record of
    the list (and is 1 for the empty list): a record created with it is
    appended by [mergeOne] instead of replacing a record, and the ids stay
    pairwise distinct when they were. *)
Theorem nextId_fresh (items : list Item.t) (it : Item.t) :
  Item.id it = nextId items →
  (items = [] → Item.id it = 1) ∧
  (∀ i, i ∈ items → Item.id i < Item.id it) ∧
  InventoryApp.mergeOne items it = items ++ [it] ∧
  (uniqueIds items → uniqueIds (InventoryApp.mergeOne items it)).
Proof.
  intros Hid.
  assert (Hgt : ∀ i, i ∈ items → Item.id i < Item.id it).
  { intros i Hi. rewrite Hid. by apply nextId_gt. }
  assert (Happ : InventoryApp.mergeOne items it = items ++ [it]).
  { destruct (mergeOne_spec items it) as [[_ ?]|[(x & Hx & Hxid) _]]; [done|].
    apply Hgt in Hx. lia. }
  split_and!; [by intros -> | done | done |].
  intros Huniq. rewrite Happ. unfold uniqueIds in *. rewrite fmap_app.
  apply NoDup_app. split_and!; [done| |apply NoDup_singleton].
  intros x (i & -> & Hi)%list_elem_of_fmap Hin.
  apply list_elem_of_singleton in Hin. apply Hgt in Hi. simpl in *. lia.
Qed.

Lemma nextId_fresh_witness :
  let a := Item.mk 4 "c" "n" 5 "u" Normal "l" None None in
  let b := Item.mk 9 "c" "n" 0 "u" Empty "l" None None in
  let c := Item.mk 10 "c" "new" 1 "u" Low "l" None None in
  InventoryApp.mergeOne [b; a] c = [b; a; c].
Proof.
  intros a b c.
  by destruct (nextId_fresh [b; a] c eq_refl) as (_ & _ & Happ & _).
Defined.

(** ** Query engine: which records are shown *)

Section FilterFacts.
Context `{Platform}.

Lemma filter_id {A} (P : A → Prop) `{∀ x, Decision (P x)} (l : list A) :
  (∀ x, x ∈ l → P x) → filter P l = l.
Proof.
  induction l as [|x l IH]; intros Hall; [done|].
  rewrite filter_cons_True by (apply Hall; left).
  f_equal. apply IH. intros y Hy. apply Hall. by right.
Qed.

Lemma includes_empty s : Str.includes s "" = true.
Proof. by destruct s. Qed.

Lemma matchesQuery_empty i : matchesQuery "" i = true.
Proof. unfold matchesQuery. by rewrite includes_empty. Qed.

Lemma filtered_elem_of_iff items filters i :
  i ∈ filtered items filters ↔ i ∈ items ∧ passes filters i.
Proof.
  split.
  - intros Hi. split; [|by eapply filtered_elem_of].
    eapply elem_of_submseteq; [exact Hi|].
    apply sublist_submseteq, filtered_sublist.
  - intros (Hin & Hq & Hc & Hs & Hl & Ho).
    destruct filters as [q c s l o]. unfold filtered. simpl in *.
    assert (Hc' : default ALL c ≠ ALL → Some (Item.category i) = c).
    { destruct c as [c|]; simpl; [|done]. intros ?. f_equal. by apply Hc. }
    assert (Hs' : default AllStatuses s ≠ AllStatuses →
                  Some (OnlyStatus (Item.status i)) = s).
    { destruct s as [[|s]|]; simpl; [done| |done]. intros _. do 2 f_equal.
      by apply Hs. }
    assert (Hl' : default ALL l ≠ ALL → Some (Item.location i) = l).
    { destruct l as [l|]; simpl; [|done]. intros ?. f_equal. by apply Hl. }
    assert (Ho' : default false o = true → Item.status i ≠ Normal).
    { destruct o as [[|]|]; simpl; [by auto|done|done]. }
    clear Hc Hs Hl Ho.
    destruct (default false o) eqn:Eo;
      repeat case_bool_decide;
      rewrite ?list_elem_of_filter;
      split_and?; auto using Is_true_true_2.
Qed.

End FilterFacts.

(** X2. The view holds exactly the records of the input that pass every
    filter: a record is in the result of [filterAndSort] if and only if it
    is in the input, its lower-cased name, category or location contains
    the lower-cased query, its category, status and location equal the
    selected ones (where one is selected), and its status is not Normal
    when the only-low flag is set.  In particular no matching record is
    lost. *)
Theorem filterAndSort_elem_of_iff `{Platform} (items : list Item.t)
    (filters : Filters.t) (sort : Sort.t) (i : Item.t) :
  i ∈ filterAndSort items filters sort ↔ i ∈ items ∧ passes filters i.
Proof.
  unfold filterAndSort. simpl.
  rewrite Array_sort_elem_of. apply filtered_elem_of_iff.
Qed.

(** X3. Unset filters filter nothing: when the query is empty and the
    category, status and location are unset or "ทั้งหมด" and the only-low
    flag is unset or false, the filter stage returns the input as it is
    and the view is a rearrangement of the whole input. *)
Theorem filterAndSort_no_filter `{Platform} (items : list Item.t)
    (filters : Filters.t) (sort : Sort.t) :
  default "" (Filters.q filters) = "" →
  default ALL (Filters.category filters) = ALL →
  default AllStatuses (Filters.status filters) = AllStatuses →
  default ALL (Filters.location filters) = ALL →
  default false (Filters.onlyLow filters) = false →
  filtered items filters = items ∧
  filterAndSort items filters sort ≡ₚ items ∧
  length (filterAndSort items filters sort) = length items.
Proof.
  intros Hq Hc Hs Hl Ho.
  assert (Hf : filtered items filters = items).
  { unfold filtered. rewrite Hq, Hc, Hs, Hl, Ho.
    rewrite ?bool_decide_false by (by intros []). simpl.
    rewrite toLowerCase_empty.
    apply filter_id. intros i _. apply Is_true_true, matchesQuery_empty. }
  assert (Hp : filterAndSort items filters sort ≡ₚ items).
  { by rewrite filterAndSort_Permutation, Hf. }
  split_and!; [done | done | by rewrite Hp].
Qed.

Lemma filterAndSort_no_filter_witness :
  let a := Item.mk 1 "c" "n" 5 "u" Normal "l" None None in
  let b := Item.mk 2 "c" "n" 0 "u" Empty "l" None None in
  filterAndSort (H:=codeUnitPlatform) [a; b]
    (Filters.mk (Some "") (Some ALL) (Some AllStatuses) None (Some false))
    (Sort.mk K_qty true) ≡ₚ [a; b].
Proof.
  intros a b.
  by destruct (filterAndSort_no_filter (H:=codeUnitPlatform) [a; b]
              (Filters.mk (Some "") (Some ALL) (Some AllStatuses) None (Some false))
              (Sort.mk K_qty true) eq_refl eq_refl eq_refl eq_refl eq_refl)
    as (_ & Hp & _).
Defined.

(** ** Query engine: the order of the view *)

Section SortFacts.
Context `{Platform}.

Lemma cmp_numeric key asc a b :
  key = K_id ∨ key = K_qty →
  cmp key asc a b =
  if asc then fieldNumber key a - fieldNumber key b
  else - (fieldNumber key a - fieldNumber key b).
Proof. by intros [-> | ->]. Qed.

Lemma cmp_time asc a b :
  cmp K_lastUpdated asc a b =
  match fieldTime (Item.lastUpdated a), fieldTime (Item.lastUpdated b) with
  | Some tA, Some tB => if asc then tA - tB else - (tA - tB)
  | _, _ => 0
  end.
Proof. done. Qed.

Lemma cmp_numeric_total key asc a b :
  key = K_id ∨ key = K_qty → cmp key asc a b ≤ 0 ∨ cmp key asc b a ≤ 0.
Proof. intros Hk. rewrite !cmp_numeric by done. destruct asc; lia. Qed.

Lemma cmp_time_total asc a b :
  cmp K_lastUpdated asc a b ≤ 0 ∨ cmp K_lastUpdated asc b a ≤ 0.
Proof.
  rewrite !cmp_time.
  destruct (fieldTime (Item.lastUpdated a)), (fieldTime (Item.lastUpdated b));
    destruct asc; lia.
Qed.

(** An array in order for one relation is in order for another that the
    first implies on the elements of the array. *)
Lemma Sorted_weaken_elem_of {A} (R R' : A → A → Prop) (l : list A) :
  (∀ a b, a ∈ l → b ∈ l → R a b → R' a b) → Sorted R l → Sorted R' l.
Proof.
  intros HR Hl. induction Hl as [|x l Hl IH Hx]; [constructor|].
  constructor.
  - apply IH. intros a b Ha Hb. apply HR; by right.
  - destruct Hx as [|y l Hxy]; constructor.
    apply HR; [by left | by right; left | done].
Qed.

Lemma cmp_numeric_transitive key asc :
  key = K_id ∨ key = K_qty → Transitive (cmp_le (cmp key asc)).
Proof.
  intros Hk a b c. unfold cmp_le. rewrite !cmp_numeric by done.
  destruct asc; lia.
Qed.

(** A comparator built on a [localeCompare] whose sign flips when its
    arguments are swapped lets any two records stand in some order. *)
Lemma cmp_total key asc :
  (∀ x y, Z.sgn (localeCompare y x) = - Z.sgn (localeCompare x y)) →
  ∀ a b, cmp key asc a b ≤ 0 ∨ cmp key asc b a ≤ 0.
Proof.
  intros Hsym a b.
  destruct key;
    try (apply cmp_numeric_total; auto; fail);
    try apply cmp_time_total;
    unfold cmp;
    match goal with
    | |- context [localeCompare ?x ?y] => specialize (Hsym x y)
    end;
    destruct asc; lia.
Qed.

(** An array that is in order is left as it is by a further sort. *)
Lemma Array_sort_sorted_id {A} (c : A → A → Z) (l : list A) :
  Sorted (cmp_le c) l → Array_sort c l = l.
Proof.
  induction 1 as [|x l Hl IH Hx]; simpl; [done|].
  rewrite IH. destruct Hx as [|y l Hxy]; simpl; [done|].
  unfold cmp_le in Hxy. by destruct (Z.leb_spec (c x y) 0); [|lia].
Qed.

Lemma filtered_fixed (l : list Item.t) filters :
  (∀ i, i ∈ l → passes filters i) → filtered l filters = l.
Proof.
  intros Hall.
  destruct filters as [q [c|] [[|s]|] [lo|] [[|]|]];
    unfold filtered; simpl;
    repeat case_bool_decide;
    rewrite ?filter_id; try done;
    (intros x Hx;
     repeat (apply list_elem_of_filter in Hx as [_ Hx]);
     destruct (Hall x Hx) as (Hq & Hc & Hs & Hl & Ho); simpl in *;
     first [ by apply Is_true_true
           | f_equal; by eauto
           | do 2 f_equal; by eauto
           | by eauto ]).
Qed.

Lemma filterAndSort_passes items filters sort i :
  i ∈ filterAndSort items filters sort → passes filters i.
Proof.
  unfold filterAndSort. simpl. rewrite Array_sort_elem_of.
  by intros [_ ?]%filtered_elem_of_iff.
Qed.

Lemma filterAndSort_fixed items filters sort :
  (∀ a b, cmp (Sort.key sort) (Sort.asc sort) a b ≤ 0
          ∨ cmp (Sort.key sort) (Sort.asc sort) b a ≤ 0) →
  filterAndSort (filterAndSort items filters sort) filters sort
  = filterAndSort items filters sort.
Proof.
  intros Htotal.
  unfold filterAndSort at 1. simpl.
  rewrite filtered_fixed by (intros i; apply filterAndSort_passes).
  apply Array_sort_sorted_id. by apply Array_sort_Sorted.
Qed.

Lemma Array_sort_numeric_desc_reverse key (l : list Item.t) :
  key = K_id ∨ key = K_qty →
  NoDup (fieldNumber key <$> l) →
  Array_sort (cmp key false) l = reverse (Array_sort (cmp key true) l).
Proof.
  intros Hk Hnd. pose proof (cmp_numeric_transitive key false Hk) as Htrans.
  apply (Sorted_unique_strong (cmp_le (cmp key false))).
  - intros a b Ha Hb Hab Hba.
    rewrite Array_sort_elem_of in Ha.
    rewrite elem_of_reverse, Array_sort_elem_of in Hb.
    apply (NoDup_fmap_elem_inj (fieldNumber key) l); [done..|].
    unfold cmp_le in *. rewrite cmp_numeric in * by done. lia.
  - apply Array_sort_Sorted. intros a b. by apply cmp_numeric_total.
  - eapply Sorted_weaken;
      [|apply Sorted_reverse, Array_sort_Sorted; intros a b;
        by apply cmp_numeric_total].
    intros a b. unfold flip, cmp_le. rewrite !cmp_numeric by done. lia.
  - by rewrite reverse_Permutation, !Array_sort_Permutation.
Qed.

End SortFacts.

(** X4. The view is in the order of the sort: sorted by id or by
    quantity, each record is followed by one whose id or quantity is not
    smaller when the direction is ascending, and not greater when it is
    descending; sorted by last update, the same holds of the times of last
    update (the epoch for a record that has none) when the host reads a
    time from the stamp of every record of the view, that is, when no
    [getTime()] is [NaN]. *)
Theorem filterAndSort_sorted `{Platform} (items : list Item.t)
    (filters : Filters.t) (asc : bool) :
  Sorted (inOrder asc Item.id) (filterAndSort items filters (Sort.mk K_id asc)) ∧
  Sorted (inOrder asc Item.qty) (filterAndSort items filters (Sort.mk K_qty asc)) ∧
  ((∀ i, i ∈ filterAndSort items filters (Sort.mk K_lastUpdated asc) →
         is_Some (fieldTime (Item.lastUpdated i))) →
   Sorted (inOrder asc (λ i, default 0 (fieldTime (Item.lastUpdated i))))
     (filterAndSort items filters (Sort.mk K_lastUpdated asc))).
Proof.
  unfold filterAndSort. simpl. split_and!.
  - eapply Sorted_weaken;
      [|apply Array_sort_Sorted; intros a b; apply cmp_numeric_total; auto].
    intros a b. unfold cmp_le, inOrder. rewrite cmp_numeric by auto.
    simpl. destruct asc; lia.
  - eapply Sorted_weaken;
      [|apply Array_sort_Sorted; intros a b; apply cmp_numeric_total; auto].
    intros a b. unfold cmp_le, inOrder. rewrite cmp_numeric by auto.
    simpl. destruct asc; lia.
  - intros Htime.
    eapply Sorted_weaken_elem_of;
      [|apply Array_sort_Sorted; intros a b; apply cmp_time_total].
    intros a b [ta Ha]%Htime [tb Hb]%Htime.
    unfold cmp_le, inOrder. rewrite cmp_time, Ha, Hb. simpl.
    destruct asc; lia.
Qed.

Lemma filterAndSort_sorted_witness :
  let it (i : Z) (t : option string) :=
    Item.mk i "c" "n" 1 "u" Normal "l" None t in
  let items := [it 2 (Some "2024-05-01T00:00:00.000Z"); it 1 None; it 3 (Some "")] in
  Sorted (inOrder false (λ i, default 0 (fieldTime (H:=codeUnitPlatform)
                                           (Item.lastUpdated i))))
    (filterAndSort (H:=codeUnitPlatform) items Filters.none
       (Sort.mk K_lastUpdated false)).
Proof.
  intros it items.
  apply (filterAndSort_sorted (H:=codeUnitPlatform) items Filters.none false).
  intros i _. destruct i as [? ? ? ? ? ? ? ? [t|]]; simpl; [|by eexists].
  case_bool_decide; by eexists.
Defined.

(** X5. The view of a view is the view: filtering and sorting the result
    of [filterAndSort] again with the same filters and the same sort
    returns it unchanged, on a host whose [localeCompare] changes sign when
    its arguments are swapped. *)
Theorem filterAndSort_idempotent `{Platform} (items : list Item.t)
    (filters : Filters.t) (sort : Sort.t) :
  (∀ x y, Z.sgn (localeCompare y x) = - Z.sgn (localeCompare x y)) →
  filterAndSort (filterAndSort items filters sort) filters sort
  = filterAndSort items filters sort.
Proof.
  intros Hsym. apply filterAndSort_fixed. by apply cmp_total.
Qed.

Lemma codeUnit_localeCompare_sign x y :
  Z.sgn (localeCompare (Platform:=codeUnitPlatform) y x)
  = - Z.sgn (localeCompare (Platform:=codeUnitPlatform) x y).
Proof.
  simpl. rewrite (String.compare_antisym x y).
  by destruct (String.compare y x).
Qed.

Lemma filterAndSort_idempotent_witness :
  let a := Item.mk 1 "b" "n" 5 "u" Normal "l" None None in
  let b := Item.mk 2 "a" "n" 0 "u" Empty "l" None None in
  let view := filterAndSort (H:=codeUnitPlatform) [a; b] Filters.none
                (Sort.mk K_category true) in
  view = [b; a] ∧
  filterAndSort (H:=codeUnitPlatform) view Filters.none
    (Sort.mk K_category true) = view.
Proof.
  intros a b view. split; [reflexivity|].
  apply (filterAndSort_idempotent (H:=codeUnitPlatform)).
  apply codeUnit_localeCompare_sign.
Defined.

(** X6. Clicking the header of the current sort column, whichever column
    it is, keeps the column and flips the direction, and clicking it twice
    restores the sort; clicking the header of another column selects that
    column in ascending direction.  On the id or the quantity column, when
    the ids (the quantities) of the records are pairwise distinct, the
    flipped view is the reverse of the view. *)
Theorem setSort_toggle_reverses `{Platform} (items : list Item.t)
    (filters : Filters.t) (s : Sort.t) (key : SortKey) :
  (Sort.key s = key →
   View.setSort key s = Sort.mk key (negb (Sort.asc s)) ∧
   View.setSort key (View.setSort key s) = s) ∧
  (Sort.key s ≠ key → View.setSort key s = Sort.mk key true) ∧
  (Sort.key s = key →
   key = K_id ∨ key = K_qty →
   NoDup (fieldNumber key <$> items) →
   filterAndSort items filters (View.setSort key s)
   = reverse (filterAndSort items filters s)).
Proof.
  split_and!.
  - intros Hs. destruct s as [k asc]. simpl in Hs. subst k.
    unfold View.setSort. simpl. rewrite !bool_decide_true by done. simpl.
    by rewrite negb_involutive.
  - intros Hs. unfold View.setSort. by rewrite bool_decide_false.
  - intros Hs Hk Hnd. destruct s as [k asc]. simpl in Hs. subst k.
    unfold View.setSort. simpl. rewrite !bool_decide_true by done. simpl.
    assert (Hnd' : NoDup (fieldNumber key <$> filtered items filters)).
    { eapply sublist_NoDup; [exact Hnd | apply fmap_sublist, filtered_sublist]. }
    unfold filterAndSort. simpl.
    destruct asc; simpl.
    + by apply Array_sort_numeric_desc_reverse.
    + rewrite Array_sort_numeric_desc_reverse by done.
      by rewrite reverse_involutive.
Qed.

Lemma setSort_toggle_reverses_witness :
  let it (i q : Z) := Item.mk i "c" "n" q "u" Normal "l" None None in
  View.setSort K_name (Sort.mk K_name true) = Sort.mk K_name false ∧
  View.setSort K_name (View.setSort K_name (Sort.mk K_name true))
  = Sort.mk K_name true ∧
  View.setSort K_qty (Sort.mk K_name false) = Sort.mk K_qty true ∧
  Item.id <$> filterAndSort (H:=codeUnitPlatform) [it 2 5; it 3 0; it 1 9]
                Filters.none (View.setSort K_id (Sort.mk K_id true))
  = [3; 2; 1].
Proof.
  intros it.
  destruct (setSort_toggle_reverses (H:=codeUnitPlatform)
              [it 2 5; it 3 0; it 1 9] Filters.none (Sort.mk K_name true) K_name)
    as ([Hflip Htwice] & _ & _); [reflexivity|].
  destruct (setSort_toggle_reverses (H:=codeUnitPlatform)
              [it 2 5; it 3 0; it 1 9] Filters.none (Sort.mk K_name false) K_qty)
    as (_ & Hother & _).
  destruct (setSort_toggle_reverses (H:=codeUnitPlatform)
              [it 2 5; it 3 0; it 1 9] Filters.none (Sort.mk K_id true) K_id)
    as (_ & _ & Hrev).
  split_and!.
  - exact Hflip.
  - exact Htwice.
  - by apply Hother.
  - rewrite Hrev; [reflexivity | reflexivity | by left |].
    vm_compute.
    repeat (apply NoDup_cons; split;
            [rewrite ?elem_of_cons, elem_of_nil; intros ?; destruct_or?; done|]).
    apply NoDup_nil_2.
Defined.

(** ** The drop-downs and the summary cards *)

Section ViewFacts.
Context `{Platform}.

Lemma length_filter_status (l : list Item.t) :
  length (filter (λ i, Item.status i ≠ Normal) l)
  = (length (filter (λ i, Item.status i = Low) l)
     + length (filter (λ i, Item.status i = Empty) l))%nat.
Proof.
  induction l as [|i l IH]; [done|].
  rewrite !filter_cons.
  destruct (Item.status i) eqn:Hst; repeat case_decide; try done; simpl; lia.
Qed.

Lemma filtered_onlyLow items :
  filtered items (Filters.mk None None None None (Some true))
  = filter (λ i, Item.status i ≠ Normal) items.
Proof.
  unfold filtered. simpl. rewrite toLowerCase_empty. f_equal.
  apply filter_id. intros i _. apply Is_true_true, matchesQuery_empty.
Qed.

Lemma filtered_category items c :
  c ≠ ALL →
  filtered items (Filters.mk None (Some c) None None None)
  = filter (λ i, Some (Item.category i) = Some c) items.
Proof.
  intros Hc. unfold filtered. simpl. rewrite bool_decide_true by done.
  rewrite toLowerCase_empty. f_equal.
  apply filter_id. intros i _. apply Is_true_true, matchesQuery_empty.
Qed.

End ViewFacts.

(** X7. The category drop-down offers "ทั้งหมด" followed by the categories
    of the records, each once; apart from "ทั้งหมด", an option is offered
    exactly when some record has that category, and selecting it alone
    shows a non-empty view whose records all have that category. *)
Theorem categories_options `{Platform} (items : list Item.t) (sort : Sort.t) :
  (∃ rest, View.categories items = ALL :: rest ∧ NoDup rest ∧
           ∀ c, c ∈ rest ↔ ∃ i, i ∈ items ∧ Item.category i = c) ∧
  ∀ c, c ∈ View.categories items → c ≠ ALL →
    let view :=
      filterAndSort items (Filters.mk None (Some c) None None None) sort in
    view ≠ [] ∧ ∀ i, i ∈ view → Item.category i = c.
Proof.
  split.
  - eexists. split; [reflexivity|]. unfold Array_from.
    split; [apply Set_new_NoDup|].
    intros c. rewrite Set_new_elem_of, list_elem_of_fmap.
    split; intros (i & ? & ?); by exists i.
  - intros c Hc Hne view.
    apply elem_of_cons in Hc as [?|Hc]; [done|].
    unfold Array_from in Hc.
    apply Set_new_elem_of, list_elem_of_fmap in Hc as (i & -> & Hi).
    assert (Hview : ∀ j, j ∈ view ↔ j ∈ items ∧ Item.category j = Item.category i).
    { intros j. unfold view, filterAndSort. simpl.
      rewrite Array_sort_elem_of, filtered_category by done.
      rewrite list_elem_of_filter.
      split; [by intros [[= ?] ?] | intros [? ?]; split; [by f_equal | done]]. }
    split.
    + intros Hnil. assert (Hin : i ∈ view) by by apply Hview.
      rewrite Hnil in Hin. by apply elem_of_nil in Hin.
    + intros j Hj. by apply Hview in Hj as [_ ?].
Qed.

Lemma categories_options_witness :
  let a := Item.mk 1 "glass" "n" 5 "u" Normal "l" None None in
  let b := Item.mk 2 "tips" "n" 0 "u" Empty "l" None None in
  View.categories [a; b; a] = [ALL; "glass"; "tips"] ∧
  filterAndSort (H:=codeUnitPlatform) [a; b; a]
    (Filters.mk None (Some "tips") None None None) (Sort.mk K_id true) ≠ [].
Proof.
  intros a b. split; [reflexivity|].
  destruct (categories_options (H:=codeUnitPlatform) [a; b; a] (Sort.mk K_id true))
    as [_ Hopt].
  apply (Hopt "tips").
  - vm_compute. do 2 right. left.
  - discriminate.
Defined.

(** X8. The summary cards count the records: the cards "ใกล้หมด" and "หมด"
    together count exactly the rows the only-low toggle shows when no
    other filter is set, and no more than the card "ทั้งหมด". *)
Theorem summary_counts_onlyLow `{Platform} (items : list Item.t)
    (sort : Sort.t) :
  let sm := View.summary items in
  length (filterAndSort items (Filters.mk None None None None (Some true)) sort)
  = (Summary.low sm + Summary.empty sm)%nat ∧
  (Summary.low sm + Summary.empty sm ≤ Summary.total sm)%nat ∧
  Summary.total sm = length items.
Proof.
  simpl.
  assert (Hlen : length (filterAndSort items
                           (Filters.mk None None None None (Some true)) sort)
                 = (length (filter (λ i, Item.status i = Low) items)
                    + length (filter (λ i, Item.status i = Empty) items))%nat).
  { rewrite filterAndSort_Permutation, filtered_onlyLow.
    apply length_filter_status. }
  split_and!; [done| |done].
  rewrite <- length_filter_status. apply length_filter.
Qed.

(** ** Record store: ids stay pairwise distinct *)

Section UniqueIds.
Import InventoryApp.

Lemma ids_adjustQty auto low now id delta (l : list Item.t) :
  Item.id <$> (adjustQty_item auto low now id delta <$> l) = Item.id <$> l.
Proof.
  rewrite <- list_fmap_compose. apply list_fmap_ext.
  intros _ i _. simpl. apply adjustQty_item_id.
Qed.

Lemma ids_replace (updated : Item.t) (l : list Item.t) :
  Item.id <$> ((λ i, if Item.id i =? Item.id updated then updated else i) <$> l)
  = Item.id <$> l.
Proof.
  rewrite <- list_fmap_compose. apply list_fmap_ext.
  intros _ i _. simpl. by destruct (Z.eqb_spec (Item.id i) (Item.id updated)).
Qed.

Lemma uniqueIds_filter (P : Item.t → Prop) `{∀ i, Decision (P i)} l :
  uniqueIds l → uniqueIds (filter P l).
Proof.
  intros Hl. eapply sublist_NoDup; [exact Hl|].
  apply fmap_sublist, sublist_filter.
Qed.

Lemma uniqueIds_mergeOne prev it :
  uniqueIds prev → uniqueIds (mergeOne prev it).
Proof.
  intros Hprev.
  destruct (mergeOne_spec prev it) as [[Hnew ->]|[_ _]].
  - unfold uniqueIds. rewrite fmap_app. apply NoDup_app.
    split_and!; [done| |apply NoDup_singleton].
    intros x (i & -> & Hi)%list_elem_of_fmap Hin%list_elem_of_singleton.
    by apply (Hnew i).
  - unfold mergeOne. case_match.
    + unfold uniqueIds. by rewrite ids_replace.
    + unfold uniqueIds in *. rewrite fmap_app. apply NoDup_app.
      split_and!; [done| |apply NoDup_singleton].
      intros x (i & -> & Hi)%list_elem_of_fmap Hin%list_elem_of_singleton.
      assert (existsb (λ x, Item.id x =? Item.id it) prev = true); [|congruence].
      apply existsb_exists. exists i.
      split; [by apply list_elem_of_In | by apply Z.eqb_eq].
Qed.

End UniqueIds.

(** X9. No operation of the component creates a duplicate id: when the
    ids of the store are pairwise distinct they still are after any event
    (quantity adjustment, quick check, member management, delete, and
    every remote event), whatever the event carries, and hence after any
    sequence of events. *)
Theorem step_preserves_uniqueIds `{Platform} (st : InventoryApp.State) :
  uniqueIds (InventoryApp.items st) →
  (∀ e, uniqueIds (InventoryApp.items (InventoryApp.step st e).1)) ∧
  (∀ es, uniqueIds (InventoryApp.items (InventoryApp.run st es))).
Proof.
  assert (Hstep : ∀ st e, uniqueIds (InventoryApp.items st) →
                          uniqueIds (InventoryApp.items (InventoryApp.step st e).1)).
  { clear st. intros st e Hst.
    destruct e; simpl; try exact Hst.
    - unfold uniqueIds. by rewrite ids_adjustQty.
    - unfold InventoryApp.confirmQuickCheck.
      destruct (InventoryApp.checkTarget st); [|exact Hst].
      destruct dbOk; [|exact Hst]. simpl.
      unfold uniqueIds.
      by rewrite (ids_replace
                    (Item.mk (Item.id t) (Item.category t) (Item.name t)
                       (Item.qty t) (Item.unit t) (Item.status t)
                       (Item.location t)
                       (Some (Array_from (InventoryApp.checkSelected st)))
                       (Some now))).
    - unfold InventoryApp.addMember. repeat case_match; exact Hst.
    - unfold InventoryApp.removeMember. repeat case_match; exact Hst.
    - unfold InventoryApp.remove. repeat case_match; try exact Hst.
      simpl. by apply uniqueIds_filter.
    - by apply uniqueIds_mergeOne.
    - by apply uniqueIds_mergeOne.
    - by apply uniqueIds_filter. }
  intros Hst. split; [intros e; by apply Hstep|].
  intros es. revert st Hst.
  induction es as [|e es IH]; intros st Hst; [done|].
  apply IH. by apply Hstep.
Qed.

Lemma step_preserves_uniqueIds_witness :
  let a := Item.mk 1 "c" "n" 5 "u" Normal "l" None None in
  let b := Item.mk 2 "c" "n" 0 "u" Empty "l" None None in
  let r := Row.mk 2 "c" "m" 3 "u" Normal "l" None None in
  let st := InventoryApp.mkState [a; b] [] true 1 false None [] "" in
  uniqueIds (InventoryApp.items
               (InventoryApp.run (H:=codeUnitPlatform) st
                  [InventoryApp.ItemsInsert r; InventoryApp.AdjustQty 1 1 "t" "t"])).
Proof.
  intros a b r st.
  destruct (step_preserves_uniqueIds (H:=codeUnitPlatform) st) as [_ Hrun]; [|apply Hrun].
  vm_compute.
  repeat (apply NoDup_cons; split;
          [rewrite ?elem_of_cons, elem_of_nil; intros ?; destruct_or?; done|]).
  apply NoDup_nil_2.
Defined.

(** ** Merge engine: last writer wins, lookup, delete *)

Section MergeFacts.
Import InventoryApp.

Lemma mergeOne_same_id prev a b :
  Item.id a = Item.id b → mergeOne (mergeOne prev a) b = mergeOne prev b.
Proof.
  intros Hid.
  pose proof (mergeOne_exists prev a) as Hex. rewrite Hid in Hex.
  unfold mergeOne at 1. rewrite Hex. clear Hex.
  unfold mergeOne. rewrite Hid.
  destruct (existsb _ prev) eqn:Hex.
  - rewrite <- list_fmap_compose. apply list_fmap_ext.
    intros _ x _. simpl.
    destruct (Item.id x =? Item.id b) eqn:Hx; [|by rewrite Hx].
    by rewrite <- Hid, Z.eqb_refl.
  - rewrite fmap_app. simpl. rewrite <- Hid, Z.eqb_refl, Hid. f_equal.
    rewrite <- (list_fmap_id prev) at 2. apply list_fmap_ext.
    intros _ x Hx%list_elem_of_lookup_2. simpl.
    destruct (Item.id x =? Item.id b) eqn:Hxb; [|done].
    assert (existsb (λ x, Item.id x =? Item.id b) prev = true); [|congruence].
    apply existsb_exists. exists x. by rewrite <- list_elem_of_In.
Qed.

Lemma find_mergeOne prev it :
  List.find (λ x, Item.id x =? Item.id it) (mergeOne prev it) = Some it.
Proof.
  unfold mergeOne. destruct (existsb _ prev) eqn:Hex.
  - induction prev as [|x prev IH]; [done|]. simpl in *.
    destruct (Item.id x =? Item.id it) eqn:Hx; simpl.
    + by rewrite Z.eqb_refl.
    + rewrite Hx. by apply IH.
  - induction prev as [|x prev IH]; simpl in *; [by rewrite Z.eqb_refl|].
    apply orb_false_iff in Hex as [-> Hex]. by apply IH.
Qed.

Lemma find_mergeOne_other prev it id :
  id ≠ Item.id it →
  List.find (λ x, Item.id x =? id) (mergeOne prev it)
  = List.find (λ x, Item.id x =? id) prev.
Proof.
  intros Hne. unfold mergeOne. destruct (existsb _ prev) eqn:Hex.
  - clear Hex. induction prev as [|x prev IH]; [done|]. simpl.
    destruct (Z.eqb_spec (Item.id x) (Item.id it)) as [Hx|Hx].
    + destruct (Z.eqb_spec (Item.id it) id); [congruence|].
      destruct (Z.eqb_spec (Item.id x) id); [congruence|]. exact IH.
    + destruct (Item.id x =? id); [done|]. exact IH.
  - clear Hex. induction prev as [|x prev IH]; simpl.
    + by destruct (Z.eqb_spec (Item.id it) id); [congruence|].
    + destruct (Item.id x =? id); [done|]. exact IH.
Qed.

Lemma onItemsDelete_elem_of id prev i :
  i ∈ onItemsDelete id prev ↔ i ∈ prev ∧ Item.id i ≠ id.
Proof. unfold onItemsDelete. rewrite list_elem_of_filter. tauto. Qed.

Lemma onItemsDelete_absent id prev :
  (∀ i, i ∈ prev → Item.id i ≠ id) → onItemsDelete id prev = prev.
Proof. intros Habs. by apply filter_id. Qed.

Lemma onItemsDelete_idempotent id prev :
  onItemsDelete id (onItemsDelete id prev) = onItemsDelete id prev.
Proof.
  apply onItemsDelete_absent. by intros i [_ ?]%onItemsDelete_elem_of.
Qed.

Lemma onItemsDelete_mergeOne prev it :
  onItemsDelete (Item.id it) (mergeOne prev it) = onItemsDelete (Item.id it) prev.
Proof.
  unfold onItemsDelete, mergeOne. destruct (existsb _ prev) eqn:Hex.
  - clear Hex. induction prev as [|x prev IH]; [done|].
    rewrite fmap_cons, !filter_cons.
    destruct (Z.eqb_spec (Item.id x) (Item.id it));
      repeat case_decide; try done; by rewrite IH.
  - rewrite filter_app, filter_cons_False by (by intros []).
    by rewrite filter_nil, app_nil_r.
Qed.

End MergeFacts.

(** X10. Last writer wins: folding two "record upserted" payloads with the
    same id into the store one after the other leaves the store that
    folding the second one alone leaves, whatever the first one held. *)
Theorem merge_last_writer_wins `{Platform} (prev : list Item.t) (ra rb : Row.t)
    (st : InventoryApp.State) :
  Row.id ra = Row.id rb →
  InventoryApp.mergeOne
    (InventoryApp.mergeOne prev (InventoryApp.rowToItem ra))
    (InventoryApp.rowToItem rb)
  = InventoryApp.mergeOne prev (InventoryApp.rowToItem rb) ∧
  InventoryApp.run st [InventoryApp.ItemsUpdate ra; InventoryApp.ItemsUpdate rb]
  = InventoryApp.run st [InventoryApp.ItemsUpdate rb].
Proof.
  intros Hid.
  assert (Hm : ∀ l, InventoryApp.mergeOne
                      (InventoryApp.mergeOne l (InventoryApp.rowToItem ra))
                      (InventoryApp.rowToItem rb)
                    = InventoryApp.mergeOne l (InventoryApp.rowToItem rb))
    by (intros l; by apply mergeOne_same_id).
  split; [apply Hm|].
  unfold InventoryApp.run. simpl.
  unfold InventoryApp.setItems, InventoryApp.onItemsUpdate. simpl.
  by rewrite Hm.
Qed.

Lemma merge_last_writer_wins_witness :
  let ra := Row.mk 7 "c" "old" 1 "u" Low "l" None None in
  let rb := Row.mk 7 "c" "new" 9 "u" Normal "l" None None in
  let a := Item.mk 7 "c" "seed" 0 "u" Empty "l" None None in
  InventoryApp.mergeOne
    (InventoryApp.mergeOne [a] (InventoryApp.rowToItem ra))
    (InventoryApp.rowToItem rb)
  = [InventoryApp.rowToItem rb].
Proof.
  intros ra rb a.
  destruct (merge_last_writer_wins (H:=codeUnitPlatform) [a] ra rb
              (InventoryApp.mkState [] [] true 1 false None [] "") eq_refl)
    as [Hm _].
  rewrite Hm. reflexivity.
Defined.

(** X11. After an upsert the store answers a lookup by the id of the
    payload with the payload, and a lookup by any other id as it did
    before. *)
Theorem mergeOne_find (prev : list Item.t) (it : Item.t) :
  List.find (λ x, Item.id x =? Item.id it) (InventoryApp.mergeOne prev it)
  = Some it ∧
  ∀ id, id ≠ Item.id it →
    List.find (λ x, Item.id x =? id) (InventoryApp.mergeOne prev it)
    = List.find (λ x, Item.id x =? id) prev.
Proof.
  split; [apply find_mergeOne | intros id; apply find_mergeOne_other].
Qed.

Lemma mergeOne_find_witness :
  let a := Item.mk 1 "c" "n" 5 "u" Normal "l" None None in
  let b := Item.mk 2 "c" "n" 0 "u" Empty "l" None None in
  let b' := Item.mk 2 "c" "m" 7 "u" Normal "l" None None in
  List.find (λ x, Item.id x =? 1) (InventoryApp.mergeOne [a; b] b') = Some a.
Proof.
  intros a b b'.
  destruct (mergeOne_find [a; b] b') as [_ Hother].
  by rewrite (Hother 1).
Defined.

(** X12. The "record removed" handler removes every record with the id and
    nothing else, keeping the order of the others; it is a no-op when no
    record has the id, applying it twice is applying it once, and a delete
    that follows an upsert of the same id leaves what the delete alone
    leaves. *)
Theorem onItemsDelete_spec (id : Z) (prev : list Item.t) :
  (∀ i, i ∈ InventoryApp.onItemsDelete id prev ↔ i ∈ prev ∧ Item.id i ≠ id) ∧
  InventoryApp.onItemsDelete id prev `sublist_of` prev ∧
  ((∀ i, i ∈ prev → Item.id i ≠ id) → InventoryApp.onItemsDelete id prev = prev) ∧
  InventoryApp.onItemsDelete id (InventoryApp.onItemsDelete id prev)
  = InventoryApp.onItemsDelete id prev ∧
  (∀ it, Item.id it = id →
     InventoryApp.onItemsDelete id (InventoryApp.mergeOne prev it)
     = InventoryApp.onItemsDelete id prev).
Proof.
  split_and!.
  - intros i. apply onItemsDelete_elem_of.
  - apply sublist_filter.
  - apply onItemsDelete_absent.
  - apply onItemsDelete_idempotent.
  - intros it <-. apply onItemsDelete_mergeOne.
Qed.

Lemma onItemsDelete_spec_witness :
  let a := Item.mk 1 "c" "n" 5 "u" Normal "l" None None in
  let b := Item.mk 2 "c" "n" 0 "u" Empty "l" None None in
  InventoryApp.onItemsDelete 9 [a; b] = [a; b] ∧
  InventoryApp.onItemsDelete 1 [a; b] = [b].
Proof.
  intros a b.
  destruct (onItemsDelete_spec 9 [a; b]) as (_ & _ & Habs & _).
  split; [|reflexivity]. apply Habs.
  intros i Hi.
  repeat (apply elem_of_cons in Hi as [->|Hi]; [done|]).
  by apply elem_of_nil in Hi.
Defined.

(** ** Record store: delete, adjustment and quick check *)

Section HandlerFacts.
Import InventoryApp.

Lemma setItems_same st : setItems (items st) st = st.
Proof. by destruct st. Qed.

Lemma find_uniqueIds (l : list Item.t) i :
  uniqueIds l → i ∈ l → List.find (λ x, Item.id x =? Item.id i) l = Some i.
Proof.
  unfold uniqueIds. induction l as [|x l IH]; intros Hnd Hi.
  - by apply elem_of_nil in Hi.
  - rewrite fmap_cons in Hnd. apply NoDup_cons in Hnd as [Hx Hnd]. simpl.
    apply elem_of_cons in Hi as [->|Hi]; [by rewrite Z.eqb_refl|].
    destruct (Z.eqb_spec (Item.id x) (Item.id i)) as [Heq|_]; [|by apply IH].
    destruct Hx. rewrite Heq. apply list_elem_of_fmap. by exists i.
Qed.

Lemma find_absent (l : list Item.t) id :
  (∀ i, i ∈ l → Item.id i ≠ id) → List.find (λ x, Item.id x =? id) l = None.
Proof.
  induction l as [|x l IH]; intros Habs; [done|]. simpl.
  destruct (Z.eqb_spec (Item.id x) id) as [Heq|_].
  - destruct (Habs x); [left | done].
  - apply IH. intros i Hi. apply Habs. by right.
Qed.

Lemma adjustQty_toSave_item auto low now id delta l cur :
  List.find (λ x, Item.id x =? id) l = Some cur →
  adjustQty_toSave auto low now id delta l
  = Some (adjustQty_item auto low now id delta cur).
Proof.
  intros Hfind. unfold adjustQty_toSave. rewrite Hfind.
  apply find_some in Hfind as [_ Hid].
  unfold adjustQty_item. by rewrite Hid.
Qed.

Lemma toggleChecker_elem_of name st x :
  x ∈ checkSelected (toggleChecker name st) ↔
  if bool_decide (x = name) then x ∉ checkSelected st else x ∈ checkSelected st.
Proof.
  unfold toggleChecker. simpl.
  rewrite (bool_decide_ext _ (name ∈ checkSelected st)) by apply Set_new_elem_of.
  case_bool_decide as Hin; case_bool_decide as Hx; subst.
  - rewrite list_elem_of_filter. split; [by intros [? _] | done].
  - rewrite list_elem_of_filter, Set_new_elem_of. tauto.
  - rewrite Set_add_elem_of, Set_new_elem_of. split; [done | by right].
  - rewrite Set_add_elem_of, Set_new_elem_of. split; [by intros [?|?] | by left].
Qed.

Lemma toggleChecker_NoDup name st : NoDup (checkSelected (toggleChecker name st)).
Proof.
  unfold toggleChecker. simpl. case_bool_decide.
  - apply NoDup_filter, Set_new_NoDup.
  - apply Set_add_NoDup, Set_new_NoDup.
Qed.

End HandlerFacts.

(** X13. Deleting a record from the table: nothing happens when the user
    cancels the dialog; when the database call fails the store is left as
    it was; otherwise every record with the id is removed, only the record
    list changes, and the remote "record removed" event that echoes the
    delete changes nothing more. *)
Theorem remove_spec `{Platform} (id : Z) (st : InventoryApp.State) :
  InventoryApp.remove id false true st = (st, []) ∧
  InventoryApp.remove id false false st = (st, []) ∧
  InventoryApp.remove id true false st = (st, [DbDeleteItem id]) ∧
  InventoryApp.remove id true true st
  = (InventoryApp.setItems
       (InventoryApp.onItemsDelete id (InventoryApp.items st)) st,
     [DbDeleteItem id]) ∧
  (∀ i, i ∈ InventoryApp.items (InventoryApp.remove id true true st).1 →
        Item.id i ≠ id) ∧
  InventoryApp.run st [InventoryApp.Remove id true true; InventoryApp.ItemsDelete id]
  = InventoryApp.run st [InventoryApp.Remove id true true].
Proof.
  split_and!; try done.
  - intros i Hi. simpl in Hi. by apply onItemsDelete_elem_of in Hi as [_ ?].
  - pose proof (onItemsDelete_idempotent id (InventoryApp.items st)) as Hidem.
    unfold InventoryApp.onItemsDelete in Hidem.
    unfold InventoryApp.run. simpl. unfold InventoryApp.setItems. simpl.
    unfold InventoryApp.onItemsDelete. by rewrite Hidem.
Qed.

Lemma remove_spec_witness :
  let a := Item.mk 1 "c" "n" 5 "u" Normal "l" None None in
  let b := Item.mk 2 "c" "n" 0 "u" Empty "l" None None in
  let st := InventoryApp.mkState [a; b] [] true 1 false None [] "" in
  InventoryApp.items (InventoryApp.remove 1 true true st).1 = [b] ∧
  ∀ i, i ∈ InventoryApp.items (InventoryApp.remove 1 true true st).1 →
       Item.id i ≠ 1.
Proof.
  intros a b st. split; [reflexivity|].
  by destruct (remove_spec (H:=codeUnitPlatform) 1 st) as (_ & _ & _ & _ & Hgone & _).
Defined.

(** X14. Adjusting the quantity of an id no record has changes nothing and
    writes nothing to the database.  When the ids of the store are
    pairwise distinct and a record has the id, exactly one database write
    is issued, and it carries the record the store now holds for that id
    (up to the two timestamps, which are taken separately). *)
Theorem adjustQty_write_through (id delta : Z) (now nowSave : string)
    (st : InventoryApp.State) :
  ((∀ i, i ∈ InventoryApp.items st → Item.id i ≠ id) →
   InventoryApp.adjustQty id delta now nowSave st = (st, [])) ∧
  (uniqueIds (InventoryApp.items st) →
   ∀ i, i ∈ InventoryApp.items st → Item.id i = id →
     (InventoryApp.adjustQty id delta now nowSave st).2
     = [DbUpsertItem
          (InventoryApp.adjustQty_item (InventoryApp.autoStatus st)
             (InventoryApp.lowThreshold st) nowSave id delta i)] ∧
     InventoryApp.adjustQty_item (InventoryApp.autoStatus st)
       (InventoryApp.lowThreshold st) now id delta i
     ∈ InventoryApp.items (InventoryApp.adjustQty id delta now nowSave st).1).
Proof.
  split.
  - intros Habs.
    assert (Hmap : InventoryApp.adjustQty_item (InventoryApp.autoStatus st)
                     (InventoryApp.lowThreshold st) now id delta
                     <$> InventoryApp.items st
                   = InventoryApp.items st).
    { rewrite <- (list_fmap_id (InventoryApp.items st)) at 2.
      apply list_fmap_ext. intros _ i Hi%list_elem_of_lookup_2. simpl.
      apply adjustQty_item_other. by apply Habs. }
    unfold InventoryApp.adjustQty, InventoryApp.adjustQty_toSave.
    by rewrite Hmap, setItems_same, find_absent.
  - intros Huniq i Hi <-. split.
    + unfold InventoryApp.adjustQty. simpl.
      by erewrite adjustQty_toSave_item by by apply find_uniqueIds.
    + rewrite adjustQty_items. apply list_elem_of_fmap. by exists i.
Qed.

Lemma adjustQty_write_through_witness :
  let a := Item.mk 1 "c" "n" 5 "u" Normal "l" None None in
  let st := InventoryApp.mkState [a] [] true 1 false None [] "" in
  InventoryApp.adjustQty 9 1 "t" "t" st = (st, []) ∧
  (InventoryApp.adjustQty 1 (-4) "t" "t" st).2
  = [DbUpsertItem (Item.mk 1 "c" "n" 1 "u" Low "l" None (Some "t"))].
Proof.
  intros a st.
  destruct (adjustQty_write_through 9 1 "t" "t" st) as [Habs _].
  destruct (adjustQty_write_through 1 (-4) "t" "t" st) as [_ Hsave].
  split.
  - apply Habs. intros i Hi.
    repeat (apply elem_of_cons in Hi as [->|Hi]; [done|]).
    by apply elem_of_nil in Hi.
  - destruct (Hsave (NoDup_singleton 1) a) as [-> _]; [left | done | done].
Defined.

(** X15. Confirming a quick check writes back the copy of the record taken
    when the modal was opened: the record keeps the quantity and the
    status it had at that moment, so a quantity adjustment made between
    opening and confirming is overwritten; its checkers become the
    selection and its [lastUpdated] the time of the confirmation. *)
Theorem confirmQuickCheck_writes_snapshot `{Platform} (st : InventoryApp.State)
    (n : nat) (it : Item.t) (delta : Z) (now1 save1 now2 : string) :
  InventoryApp.items st !! n = Some it →
  let st' :=
    InventoryApp.run st
      [InventoryApp.OpenQuickCheck it;
       InventoryApp.AdjustQty (Item.id it) delta now1 save1;
       InventoryApp.ConfirmQuickCheck now2 true] in
  InventoryApp.items st' !! n =
  Some {| Item.id := Item.id it;
          Item.category := Item.category it;
          Item.name := Item.name it;
          Item.qty := Item.qty it;
          Item.unit := Item.unit it;
          Item.status := Item.status it;
          Item.location := Item.location it;
          Item.checkedBy := Some (Set_new (default [] (Item.checkedBy it)));
          Item.lastUpdated := Some now2 |} ∧
  InventoryApp.checkTarget st' = None ∧
  InventoryApp.checkOpen st' = false.
Proof.
  intros Hn st'. unfold st', InventoryApp.run. simpl.
  split; [|done].
  rewrite !list_lookup_fmap, Hn. simpl.
  by rewrite adjustQty_item_id, Z.eqb_refl.
Qed.

Lemma confirmQuickCheck_writes_snapshot_witness :
  let a := Item.mk 1 "c" "n" 5 "u" Normal "l" (Some ["Ann"]) None in
  let st := InventoryApp.mkState [a] ["Ann"] true 1 false None [] "" in
  Item.qty <$>
    InventoryApp.items
      (InventoryApp.run (H:=codeUnitPlatform) st
         [InventoryApp.OpenQuickCheck a; InventoryApp.AdjustQty 1 (-5) "t1" "t1";
          InventoryApp.ConfirmQuickCheck "t2" true]) !! 0%nat
  = Some 5.
Proof.
  intros a st.
  destruct (confirmQuickCheck_writes_snapshot (H:=codeUnitPlatform)
              st 0 a (-5) "t1" "t1" "t2" eq_refl)
    as [Hn _].
  change (Item.id a) with 1 in Hn. by rewrite Hn.
Defined.

(** X16. Toggling a checker in the quick-check modal flips the membership
    of that name in the selection and of no other name; the selection
    never holds a name twice; toggling the same name twice restores the
    membership of every name. *)
Theorem toggleChecker_spec (name : string) (st : InventoryApp.State) :
  let sel := InventoryApp.checkSelected st in
  let sel1 := InventoryApp.checkSelected (InventoryApp.toggleChecker name st) in
  let sel2 := InventoryApp.checkSelected
                (InventoryApp.toggleChecker name
                   (InventoryApp.toggleChecker name st)) in
  (name ∈ sel1 ↔ name ∉ sel) ∧
  (∀ x, x ≠ name → (x ∈ sel1 ↔ x ∈ sel)) ∧
  NoDup sel1 ∧
  (∀ x, x ∈ sel2 ↔ x ∈ sel).
Proof.
  cbv zeta. split_and!.
  - rewrite toggleChecker_elem_of. by rewrite bool_decide_true.
  - intros x Hx. rewrite toggleChecker_elem_of. by rewrite bool_decide_false.
  - apply toggleChecker_NoDup.
  - intros x. rewrite toggleChecker_elem_of.
    case_bool_decide as Hx.
    + subst. rewrite toggleChecker_elem_of, bool_decide_true by done.
      split; [apply dec_stable | auto].
    + rewrite toggleChecker_elem_of. by rewrite bool_decide_false.
Qed.

Lemma toggleChecker_spec_witness :
  let st := InventoryApp.mkState [] ["Ann"; "Bo"] true 1 true None ["Ann"] "" in
  InventoryApp.checkSelected (InventoryApp.toggleChecker "Bo" st) = ["Ann"; "Bo"] ∧
  InventoryApp.checkSelected (InventoryApp.toggleChecker "Ann" st) = [] ∧
  ("Ann" ∈ InventoryApp.checkSelected (InventoryApp.toggleChecker "Bo" st)).
Proof.
  intros st. split_and!; [reflexivity | reflexivity |].
  destruct (toggleChecker_spec "Bo" st) as (_ & Hother & _).
  apply Hother; [discriminate | left].
Defined.

(** X17. In the local-only version of the component a confirmed quick
    check changes the checkers and the [lastUpdated] of the records with
    the id of the checked record and nothing else: in particular every
    record keeps its id, its quantity and its status. *)
Theorem LocalOnly_confirmQuickCheck_keeps_quantities (now : string)
    (st : InventoryApp.State) (target : Item.t) :
  InventoryApp.checkTarget st = Some target →
  let st' := LocalOnly.confirmQuickCheck now st in
  (λ i, (Item.id i, Item.category i, Item.name i, Item.qty i, Item.unit i,
          Item.status i, Item.location i)) <$> InventoryApp.items st'
  = (λ i, (Item.id i, Item.category i, Item.name i, Item.qty i, Item.unit i,
            Item.status i, Item.location i)) <$> InventoryApp.items st ∧
  (∀ n i, InventoryApp.items st !! n = Some i →
     ∃ i', InventoryApp.items st' !! n = Some i' ∧
       if bool_decide (Item.id i = Item.id target)
       then Item.checkedBy i' = Some (InventoryApp.checkSelected st) ∧
            Item.lastUpdated i' = Some now
       else i' = i).
Proof.
  intros Ht st'. unfold st', LocalOnly.confirmQuickCheck. rewrite Ht. simpl.
  split.
  - rewrite <- list_fmap_compose. apply list_fmap_ext.
    intros _ i _. simpl. by case_match.
  - intros n i Hn. rewrite list_lookup_fmap, Hn. simpl.
    eexists. split; [done|].
    destruct (Z.eqb_spec (Item.id i) (Item.id target));
      [by rewrite bool_decide_true | by rewrite bool_decide_false].
Qed.

Lemma LocalOnly_confirmQuickCheck_keeps_quantities_witness :
  let a := Item.mk 1 "c" "n" 5 "u" Normal "l" None None in
  let a0 := Item.mk 1 "c" "n" 0 "u" Empty "l" None None in
  let st := InventoryApp.mkState [a] ["Ann"] true 1 true (Some a0) ["Ann"] "" in
  Item.qty <$> InventoryApp.items (LocalOnly.confirmQuickCheck "t" st) = [5].
Proof.
  intros a a0 st.
  destruct (LocalOnly_confirmQuickCheck_keeps_quantities "t" st a0 eq_refl)
    as [Hsame _].
  apply (f_equal (fmap (λ t : Z * string * string * Z * string * Status * string,
                          t.1.1.1.2))) in Hsame.
  rewrite <- !list_fmap_compose in Hsame. exact Hsame.
Defined.

(** ** The roster *)

Section RosterFacts.
Import InventoryApp.
Context `{Platform}.

Lemma distinctIgnoringCase_snoc roster name :
  distinctIgnoringCase roster →
  Str.asciiLower name ∉ Str.asciiLower <$> roster →
  distinctIgnoringCase (roster ++ [name]).
Proof.
  unfold distinctIgnoringCase. intros Hr Hname. rewrite fmap_app.
  apply NoDup_app. split_and!; [done| |apply NoDup_singleton].
  by intros x Hx ->%list_elem_of_singleton.
Qed.

Lemma distinctIgnoringCase_filter (P : string → Prop)
    `{∀ x, Decision (P x)} roster :
  distinctIgnoringCase roster → distinctIgnoringCase (filter P roster).
Proof.
  intros Hr. eapply sublist_NoDup; [exact Hr|].
  apply fmap_sublist, sublist_filter.
Qed.

Lemma distinctIgnoringCase_NoDup roster :
  distinctIgnoringCase roster → NoDup roster.
Proof. apply NoDup_fmap_1. Qed.

(** A name the host's [toLowerCase] tells apart from every name of the
    roster differs from each of them in more than ASCII case. *)
Lemma some_sameName_false roster name :
  existsb (λ c, bool_decide (toLowerCase c = toLowerCase name)) roster
  = false →
  Str.asciiLower name ∉ Str.asciiLower <$> roster.
Proof.
  intros Hex (c & Hc & Hin)%list_elem_of_fmap.
  assert (existsb (λ c, bool_decide (toLowerCase c = toLowerCase name))
            roster = true); [|congruence].
  apply some_sameName_true. by exists c.
Qed.

Lemma onCheckersInsert_member name prev :
  NoDup prev → name ∈ prev → onCheckersInsert name prev = prev.
Proof.
  intros Hnd Hin. unfold onCheckersInsert, Array_from.
  rewrite Set_new_snoc, Set_new_fresh by done.
  unfold Set_add. by rewrite bool_decide_true.
Qed.

Lemma onCheckersInsert_fresh name prev :
  NoDup prev → name ∉ prev → onCheckersInsert name prev = prev ++ [name].
Proof.
  intros Hnd Hin. unfold onCheckersInsert, Array_from.
  rewrite Set_new_snoc, Set_new_fresh by done.
  unfold Set_add. by rewrite bool_decide_false.
Qed.

Lemma onCheckersInsert_NoDup name prev : NoDup (onCheckersInsert name prev).
Proof. apply Set_new_NoDup. Qed.

Lemma onCheckersInsert_elem_of name prev :
  name ∈ onCheckersInsert name prev.
Proof.
  unfold onCheckersInsert, Array_from.
  rewrite Set_new_elem_of, elem_of_app, list_elem_of_singleton. by right.
Qed.

Lemma onCheckersDelete_absent name prev :
  name ∉ prev → onCheckersDelete name prev = prev.
Proof.
  intros Hn. apply filter_id. intros x Hx ->. done.
Qed.

Lemma DEFAULT_CHECKERS_distinct : distinctIgnoringCase DEFAULT_CHECKERS.
Proof. by apply (bool_decide_unpack _). Qed.

End RosterFacts.

(** X18. The roster stays free of names that are equal up to ASCII case:
    when its names are pairwise distinct up to case (as those of
    [DEFAULT_CHECKERS] are), they still are after every event, provided a
    remote "checker added" event carries a name that is in the roster or
    differs from all its names in more than case.  Adding a member in the
    modal never needs that proviso. *)
Theorem step_preserves_distinct_roster `{Platform} (st : InventoryApp.State)
    (e : InventoryApp.Event) :
  distinctIgnoringCase (InventoryApp.checkers st) →
  rosterAdmissible st e →
  distinctIgnoringCase (InventoryApp.checkers (InventoryApp.step st e).1).
Proof.
  intros Hst Hadm.
  destruct e; simpl in *; try exact Hst.
  - unfold InventoryApp.confirmQuickCheck. repeat case_match; exact Hst.
  - unfold InventoryApp.addMember.
    case_bool_decide; [exact Hst|].
    destruct (existsb _ _) eqn:Hex; [exact Hst|].
    destruct dbOk; [|exact Hst]. simpl.
    apply distinctIgnoringCase_snoc; [done|]. by apply some_sameName_false.
  - unfold InventoryApp.removeMember. repeat case_match; try exact Hst.
    simpl. by apply distinctIgnoringCase_filter.
  - unfold InventoryApp.remove. repeat case_match; exact Hst.
  - destruct Hadm as [Hin|Hfresh].
    + rewrite onCheckersInsert_member;
        [done | by apply distinctIgnoringCase_NoDup | done].
    + assert (name ∉ InventoryApp.checkers st).
      { intros Hin. apply Hfresh, list_elem_of_fmap. by exists name. }
      rewrite onCheckersInsert_fresh;
        [|by apply distinctIgnoringCase_NoDup | done].
      by apply distinctIgnoringCase_snoc.
  - by apply distinctIgnoringCase_filter.
Qed.

Lemma step_preserves_distinct_roster_witness :
  let st := InventoryApp.mkState [] DEFAULT_CHECKERS true 1 false None [] " Bo " in
  distinctIgnoringCase
    (InventoryApp.checkers
       (InventoryApp.step (H:=codeUnitPlatform) st
          (InventoryApp.AddMember true)).1) ∧
  last (InventoryApp.checkers
          (InventoryApp.step (H:=codeUnitPlatform) st
             (InventoryApp.AddMember true)).1)
  = Some "Bo".
Proof.
  intros st. split; [|reflexivity].
  apply (step_preserves_distinct_roster (H:=codeUnitPlatform));
    [apply DEFAULT_CHECKERS_distinct | exact I].
Defined.

(** X19. Removing a member: nothing happens when the user cancels; when
    the database call fails the roster is left as it was; otherwise the
    name is gone from the roster, the other names stay in their order, and
    no record is touched, so the name stays in the [checkedBy] of the
    records that carried it. *)
Theorem removeMember_spec (name : string) (st : InventoryApp.State) :
  InventoryApp.removeMember name false true st = (st, []) ∧
  InventoryApp.removeMember name false false st = (st, []) ∧
  (InventoryApp.removeMember name true false st).1 = st ∧
  (let st' := (InventoryApp.removeMember name true true st).1 in
   (name ∉ InventoryApp.checkers st') ∧
   (∀ x, x ≠ name → (x ∈ InventoryApp.checkers st' ↔ x ∈ InventoryApp.checkers st)) ∧
   InventoryApp.checkers st' `sublist_of` InventoryApp.checkers st ∧
   InventoryApp.items st' = InventoryApp.items st ∧
   (name ∉ InventoryApp.checkers st →
    InventoryApp.checkers st' = InventoryApp.checkers st)).
Proof.
  split_and!; try done. cbv zeta. simpl. split_and!; try done.
  - by intros [? _]%list_elem_of_filter.
  - intros x Hx. rewrite list_elem_of_filter. tauto.
  - apply sublist_filter.
  - apply onCheckersDelete_absent.
Qed.

Lemma removeMember_spec_witness :
  let a := Item.mk 1 "c" "n" 5 "u" Normal "l" (Some ["Bo"]) None in
  let st := InventoryApp.mkState [a] ["Ann"; "Bo"] true 1 false None [] "" in
  InventoryApp.checkers (InventoryApp.removeMember "Bo" true true st).1 = ["Ann"] ∧
  InventoryApp.items (InventoryApp.removeMember "Bo" true true st).1 = [a].
Proof.
  intros a st. split; [reflexivity|].
  by destruct (removeMember_spec "Bo" st) as (_ & _ & _ & _ & _ & _ & Hitems & _).
Defined.

(** X20. Records and roster are independent: no roster event (adding or
    removing a member, typing a name, a remote "checker added" or "checker
    removed" event) changes the records, and no record event changes the
    roster. *)
Theorem step_frame `{Platform} (st : InventoryApp.State) (e : InventoryApp.Event) :
  match e with
  | InventoryApp.TypeNewMember _ | InventoryApp.AddMember _
  | InventoryApp.RemoveMember _ _ _ | InventoryApp.CheckersInsert _
  | InventoryApp.CheckersDelete _ =>
      InventoryApp.items (InventoryApp.step st e).1 = InventoryApp.items st
  | _ =>
      InventoryApp.checkers (InventoryApp.step st e).1 = InventoryApp.checkers st
  end.
Proof.
  destruct e; simpl; try done.
  - unfold InventoryApp.confirmQuickCheck. by repeat case_match.
  - unfold InventoryApp.addMember. by repeat case_match.
  - unfold InventoryApp.removeMember. by repeat case_match.
  - unfold InventoryApp.remove. by repeat case_match.
Qed.

(** X21. Remote roster events are idempotent and undo each other: a
    "checker added" event applied twice gives what it gives once, the
    roster after it holds no name twice, a "checker removed" event leaves
    no occurrence of the name and is a no-op when the name is absent, and
    on a duplicate-free roster adding an absent name and removing it again
    restores the roster. *)
Theorem roster_events_spec (name : string) (prev : list string) :
  InventoryApp.onCheckersInsert name (InventoryApp.onCheckersInsert name prev)
  = InventoryApp.onCheckersInsert name prev ∧
  (name ∉ InventoryApp.onCheckersDelete name prev) ∧
  InventoryApp.onCheckersDelete name (InventoryApp.onCheckersDelete name prev)
  = InventoryApp.onCheckersDelete name prev ∧
  (name ∉ prev → InventoryApp.onCheckersDelete name prev = prev) ∧
  (NoDup prev → name ∉ prev →
   InventoryApp.onCheckersDelete name (InventoryApp.onCheckersInsert name prev)
   = prev).
Proof.
  assert (Hdel : name ∉ InventoryApp.onCheckersDelete name prev).
  { by intros [? _]%list_elem_of_filter. }
  split_and!.
  - apply onCheckersInsert_member;
      [apply onCheckersInsert_NoDup | apply onCheckersInsert_elem_of].
  - exact Hdel.
  - by apply onCheckersDelete_absent.
  - apply onCheckersDelete_absent.
  - intros Hnd Hn. rewrite onCheckersInsert_fresh by done.
    unfold InventoryApp.onCheckersDelete.
    rewrite filter_app, filter_cons_False by (by intros []).
    rewrite filter_nil, app_nil_r. by apply onCheckersDelete_absent.
Qed.

Lemma roster_events_spec_witness :
  InventoryApp.onCheckersDelete "Bo"
    (InventoryApp.onCheckersInsert "Bo" ["Ann"; "Cy"]) = ["Ann"; "Cy"].
Proof.
  destruct (roster_events_spec "Bo" ["Ann"; "Cy"]) as (_ & _ & _ & _ & H).
  apply H.
  - repeat (apply NoDup_cons; split;
            [rewrite ?elem_of_cons, elem_of_nil; intros ?; destruct_or?; done|]).
    apply NoDup_nil_2.
  - intros Hin.
    repeat (apply elem_of_cons in Hin as [Hin|Hin]; [discriminate|]).
    by apply elem_of_nil in Hin.
Defined.

(** ** Write-through and its echo *)

Section EchoFacts.
Import InventoryApp.

Lemma rowToItem_upsertRow it :
  is_Some (Item.checkedBy it) → rowToItem (upsertRow it) = it.
Proof. intros [l Hl]. destruct it. simpl in *. by subst. Qed.

Lemma mergeOne_member l it :
  uniqueIds l → it ∈ l → mergeOne l it = l.
Proof.
  intros Huniq Hit. unfold mergeOne.
  assert (existsb (λ x, Item.id x =? Item.id it) l = true) as ->.
  { apply existsb_exists. exists it.
    split; [by apply list_elem_of_In | apply Z.eqb_refl]. }
  rewrite <- (list_fmap_id l) at 2. apply list_fmap_ext.
  intros _ x Hx%list_elem_of_lookup_2. simpl.
  destruct (Z.eqb_spec (Item.id x) (Item.id it)) as [Heq|]; [|done].
  symmetry. by apply (NoDup_fmap_elem_inj Item.id l).
Qed.

End EchoFacts.

(** X22. The row sent to the backend and the record read back from a row
    are inverse to each other up to the empty list of checkers: a row
    survives the round trip through a record once its [checked_by] is not
    null, a record survives the round trip through a row when its
    [checkedBy] is defined, and a record without [checkedBy] comes back
    with the empty list. *)
Theorem rowToItem_upsertRow_roundtrip (it : Item.t) (r : Row.t) :
  InventoryApp.rowToItem (upsertRow (InventoryApp.rowToItem r))
  = InventoryApp.rowToItem r ∧
  (is_Some (Row.checked_by r) → upsertRow (InventoryApp.rowToItem r) = r) ∧
  (is_Some (Item.checkedBy it) → InventoryApp.rowToItem (upsertRow it) = it) ∧
  (Item.checkedBy it = None →
   Item.checkedBy (InventoryApp.rowToItem (upsertRow it)) = Some [] ∧
   InventoryApp.rowToItem (upsertRow it) ≠ it).
Proof.
  split_and!.
  - by destruct r.
  - intros [l Hl]. destruct r. simpl in *. by subst.
  - apply rowToItem_upsertRow.
  - intros Hnone. destruct it. simpl in *. subst. split; [done|].
    intros [=].
Qed.

Lemma rowToItem_upsertRow_roundtrip_witness :
  let a := Item.mk 1 "c" "n" 5 "u" Normal "l" (Some ["Ann"]) (Some "t") in
  InventoryApp.rowToItem (upsertRow a) = a.
Proof.
  intros a.
  destruct (rowToItem_upsertRow_roundtrip a (upsertRow a)) as (_ & _ & H & _).
  apply H. by eexists.
Defined.

(** X23. The echo of an own write changes nothing: after a quantity
    adjustment of a record that has a [checkedBy] list, in a store with
    pairwise distinct ids, folding the remote UPDATE event that carries
    the row just written through (both timestamps being the same) leaves
    the store as the adjustment left it. *)
Theorem adjustQty_echo_noop `{Platform} (st : InventoryApp.State) (i : Item.t)
    (delta : Z) (now : string) :
  uniqueIds (InventoryApp.items st) →
  i ∈ InventoryApp.items st →
  is_Some (Item.checkedBy i) →
  let saved :=
    InventoryApp.adjustQty_item (InventoryApp.autoStatus st)
      (InventoryApp.lowThreshold st) now (Item.id i) delta i in
  (InventoryApp.adjustQty (Item.id i) delta now now st).2 = [DbUpsertItem saved] ∧
  InventoryApp.run st
    [InventoryApp.AdjustQty (Item.id i) delta now now;
     InventoryApp.ItemsUpdate (upsertRow saved)]
  = InventoryApp.run st [InventoryApp.AdjustQty (Item.id i) delta now now].
Proof.
  intros Huniq Hi Hchk saved. split.
  - unfold InventoryApp.adjustQty. simpl.
    by erewrite adjustQty_toSave_item by by apply find_uniqueIds.
  - unfold InventoryApp.run. simpl.
    unfold InventoryApp.onItemsUpdate.
    rewrite rowToItem_upsertRow.
    2:{ unfold saved, InventoryApp.adjustQty_item. by rewrite Z.eqb_refl. }
    rewrite mergeOne_member.
    + by destruct st.
    + unfold uniqueIds. simpl. by rewrite ids_adjustQty.
    + simpl. apply list_elem_of_fmap. by exists i.
Qed.

Lemma adjustQty_echo_noop_witness :
  let a := Item.mk 1 "c" "n" 5 "u" Normal "l" (Some []) None in
  let st := InventoryApp.mkState [a] [] true 1 false None [] "" in
  InventoryApp.items
    (InventoryApp.run (H:=codeUnitPlatform) st
       [InventoryApp.AdjustQty 1 (-4) "t" "t";
        InventoryApp.ItemsUpdate
          (Row.mk 1 "c" "n" 1 "u" Low "l" (Some []) (Some "t"))])
  = [Item.mk 1 "c" "n" 1 "u" Low "l" (Some []) (Some "t")].
Proof.
  intros a st.
  destruct (adjustQty_echo_noop (H:=codeUnitPlatform) st a (-4) "t") as [_ Hrun].
  - apply NoDup_singleton.
  - left.
  - by eexists.
  - change (InventoryApp.run (H:=codeUnitPlatform) st
              [InventoryApp.AdjustQty 1 (-4) "t" "t";
               InventoryApp.ItemsUpdate
                 (Row.mk 1 "c" "n" 1 "u" Low "l" (Some []) (Some "t"))]
            = InventoryApp.run (H:=codeUnitPlatform) st [InventoryApp.AdjustQty 1 (-4) "t" "t"])
      in Hrun.
    by rewrite Hrun.
Defined.

(** ** Roster reconciliation against the backend *)

Section DbSetCheckersFacts.
Import DbSetCheckers.

Lemma toDel_elem_of cur lst x : x ∈ toDel cur lst ↔ x ∈ cur ∧ x ∉ lst.
Proof.
  unfold toDel, Array_from. rewrite list_elem_of_filter, !Set_new_elem_of. tauto.
Qed.

Lemma toAdd_elem_of cur lst x : x ∈ toAdd cur lst ↔ x ∈ lst ∧ x ∉ cur.
Proof.
  unfold toAdd, Array_from. rewrite list_elem_of_filter, !Set_new_elem_of. tauto.
Qed.

Lemma run_eq lst table :
  run lst table = delete_in (toDel table lst) table ++ toAdd table lst.
Proof.
  unfold run, DbSetCheckers.insert.
  assert (Hdel : (if bool_decide (toDel table lst ≠ [])
                  then delete_in (toDel table lst) table else table)
                 = delete_in (toDel table lst) table).
  { case_bool_decide as Hd; [done|].
    rewrite Hd. unfold delete_in.
    symmetry. apply filter_id. intros x _. apply not_elem_of_nil. }
  rewrite Hdel. clear Hdel. case_bool_decide as Ha; [done|].
  by rewrite Ha, app_nil_r.
Qed.

End DbSetCheckersFacts.

(** X24. Reconciling the roster with the backend: when the select and the
    two writes succeed, the [checkers] table holds afterwards exactly the
    names of the wanted roster, no name twice if it held none twice
    before; the names deleted are those of the table that are not wanted
    and the names inserted are the wanted ones the table lacked, so a
    table that already agrees with the roster is not written to. *)
Theorem dbSetCheckers_reconciles (lst table : list string) :
  (∀ x, x ∈ DbSetCheckers.run lst table ↔ x ∈ lst) ∧
  (NoDup table → NoDup (DbSetCheckers.run lst table)) ∧
  (∀ x, x ∈ DbSetCheckers.toDel table lst ↔ x ∈ table ∧ x ∉ lst) ∧
  (∀ x, x ∈ DbSetCheckers.toAdd table lst ↔ x ∈ lst ∧ x ∉ table) ∧
  ((∀ x, x ∈ table ↔ x ∈ lst) →
   DbSetCheckers.toDel table lst = [] ∧ DbSetCheckers.toAdd table lst = [] ∧
   DbSetCheckers.run lst table = table).
Proof.
  assert (Hkeep : ∀ x, x ∈ DbSetCheckers.delete_in (DbSetCheckers.toDel table lst) table
                       ↔ x ∈ table ∧ x ∈ lst).
  { intros x. unfold DbSetCheckers.delete_in.
    rewrite list_elem_of_filter, toDel_elem_of.
    destruct (decide (x ∈ lst)); tauto. }
  split_and!.
  - intros x. rewrite run_eq, elem_of_app, Hkeep, toAdd_elem_of.
    destruct (decide (x ∈ table)); tauto.
  - intros Hnd. rewrite run_eq. apply NoDup_app. split_and!.
    + by apply NoDup_filter.
    + intros x [Hx _]%Hkeep [_ Hx']%toAdd_elem_of. done.
    + apply NoDup_filter, Set_new_NoDup.
  - intros x. apply toDel_elem_of.
  - intros x. apply toAdd_elem_of.
  - intros Hsame.
    assert (Hd : DbSetCheckers.toDel table lst = []).
    { apply elem_of_nil_inv. intros x [Hx Hn]%toDel_elem_of. by apply Hn, Hsame. }
    assert (Ha : DbSetCheckers.toAdd table lst = []).
    { apply elem_of_nil_inv. intros x [Hx Hn]%toAdd_elem_of. by apply Hn, Hsame. }
    split_and!; [done | done |].
    unfold DbSetCheckers.run. by rewrite Hd, Ha.
Qed.

Lemma dbSetCheckers_reconciles_witness :
  DbSetCheckers.run ["Ann"; "Cy"] ["Bo"; "Ann"] = ["Ann"; "Cy"] ∧
  DbSetCheckers.run ["Ann"; "Bo"] ["Bo"; "Ann"] = ["Bo"; "Ann"].
Proof.
  split; [reflexivity|].
  destruct (dbSetCheckers_reconciles ["Ann"; "Bo"] ["Bo"; "Ann"])
    as (_ & _ & _ & _ & Hsame).
  apply Hsame. intros x. rewrite !elem_of_cons, !elem_of_nil. tauto.
Defined.

(** X25. The low-stock threshold never falls below 1: whatever number is
    typed into the threshold box the stored threshold is at least 1, and a
    threshold of at least 1 stays so under every event. *)
Theorem lowThreshold_at_least_one `{Platform} (st : InventoryApp.State)
    (e : InventoryApp.Event) :
  (∀ value,
     1 ≤ InventoryApp.lowThreshold
           (InventoryApp.step st (InventoryApp.TypeLowThreshold value)).1) ∧
  (1 ≤ InventoryApp.lowThreshold st →
   1 ≤ InventoryApp.lowThreshold (InventoryApp.step st e).1).
Proof.
  split; [intros value; simpl; lia|].
  intros Hst. destruct e; simpl; try exact Hst; try lia.
  - unfold InventoryApp.confirmQuickCheck. repeat case_match; exact Hst.
  - unfold InventoryApp.addMember. repeat case_match; exact Hst.
  - unfold InventoryApp.removeMember. repeat case_match; exact Hst.
  - unfold InventoryApp.remove. repeat case_match; exact Hst.
Qed.

Lemma lowThreshold_at_least_one_witness :
  let st := InventoryApp.mkState [] [] true 1 false None [] "" in
  InventoryApp.lowThreshold
    (InventoryApp.step (H:=codeUnitPlatform) st (InventoryApp.TypeLowThreshold (-3))).1 = 1 ∧
  1 ≤ InventoryApp.lowThreshold
        (InventoryApp.step (H:=codeUnitPlatform) st (InventoryApp.TypeLowThreshold 4)).1.
Proof.
  intros st. split; [reflexivity|].
  destruct (lowThreshold_at_least_one (H:=codeUnitPlatform) st (InventoryApp.TypeLowThreshold 4))
    as [_ H].
  apply H. simpl. lia.
Defined.

(** ** Write-through without a backend *)

Section LocalDbFacts.
Import InventoryApp.

Lemma find_None_absent (l : list Item.t) id :
  List.find (λ x, Item.id x =? id) l = None → ∀ i, i ∈ l → Item.id i ≠ id.
Proof.
  intros Hfind i Hi Hid.
  pose proof (find_none _ _ Hfind i (proj1 (list_elem_of_In _ _) Hi)) as Hne.
  simpl in Hne. apply Z.eqb_neq in Hne. done.
Qed.

Lemma adjustQty_item_absent auto low now id delta (l : list Item.t) :
  (∀ i, i ∈ l → Item.id i ≠ id) →
  adjustQty_item auto low now id delta <$> l = l.
Proof.
  intros Habs. rewrite <- (list_fmap_id l) at 2. apply list_fmap_ext.
  intros _ i Hi%list_elem_of_lookup_2. simpl.
  apply adjustQty_item_other. by apply Habs.
Qed.

(** Upserting the adjusted record into the old list gives the list of
    adjusted records. *)
Lemma upsert_adjusted auto low now id delta (l : list Item.t) cur :
  uniqueIds l → cur ∈ l → Item.id cur = id →
  LocalDb.STORAGE_KEY
    (LocalDb.dbUpsertItem (adjustQty_item auto low now id delta cur)
       (LocalDb.mkStorage (Some l) None None))
  = Some (adjustQty_item auto low now id delta <$> l).
Proof.
  intros Huniq Hcur Hid. unfold LocalDb.dbUpsertItem. simpl.
  rewrite adjustQty_item_id.
  assert (existsb (λ x, Item.id x =? Item.id cur) l = true) as ->.
  { apply existsb_exists. exists cur.
    split; [by apply list_elem_of_In | apply Z.eqb_refl]. }
  f_equal. apply list_fmap_ext. intros _ x Hx%list_elem_of_lookup_2.
  destruct (Z.eqb_spec (Item.id x) (Item.id cur)) as [Heq|Hne].
  - by rewrite (NoDup_fmap_elem_inj Item.id l x cur Huniq Hx Hcur Heq).
  - symmetry. apply adjustQty_item_other. congruence.
Qed.

End LocalDbFacts.

(** X26. Without a backend the storage follows the store: when the stored
    record list and roster are those of the state and the ids are
    pairwise distinct, they are again those of the state after any local
    event and the database calls it issues (the two timestamps of an
    adjustment being equal, and a quick check being confirmed for a record
    the store still holds). *)
Theorem local_write_through_in_sync `{Platform} (st : InventoryApp.State)
    (ls : LocalDb.Storage) (e : InventoryApp.Event) :
  uniqueIds (InventoryApp.items st) →
  LocalDb.inSync st ls →
  LocalDb.localEvent st e →
  LocalDb.inSync (InventoryApp.step st e).1
    (foldl LocalDb.perform ls (InventoryApp.step st e).2).
Proof.
  intros Huniq [Hitems Hcheckers] Hloc.
  destruct ls as [si sc cv]. simpl in Hitems, Hcheckers. subst si sc.
  destruct e; simpl in Hloc; try done; simpl.
  - (* adjustQty *)
    subst nowSave. unfold InventoryApp.adjustQty_toSave.
    destruct (List.find _ _) as [cur|] eqn:Hfind; simpl.
    + apply find_some in Hfind as Hcur. destruct Hcur as [Hcur Hid].
      apply list_elem_of_In in Hcur. apply Z.eqb_eq in Hid.
      split; [|done].
      pose proof (upsert_adjusted (InventoryApp.autoStatus st)
                    (InventoryApp.lowThreshold st) now id delta
                    (InventoryApp.items st) cur Huniq Hcur Hid) as Hup.
      unfold InventoryApp.adjustQty_item in Hup at 1.
      rewrite (proj2 (Z.eqb_eq _ _) Hid) in Hup. exact Hup.
    + split; [|done]. simpl. f_equal. symmetry.
      apply adjustQty_item_absent. by apply find_None_absent.
  - (* confirmQuickCheck *)
    destruct Hloc as [-> Hheld]. unfold InventoryApp.confirmQuickCheck.
    destruct (InventoryApp.checkTarget st) as [target|] eqn:Ht; [|done].
    destruct (Hheld target eq_refl) as (i & Hi & Hid).
    split; [|done]. simpl. unfold LocalDb.dbUpsertItem. simpl.
    assert (existsb (λ x, Item.id x =? Item.id target) (InventoryApp.items st)
            = true) as ->; [|done].
    apply existsb_exists. exists i.
    split; [by apply list_elem_of_In | by apply Z.eqb_eq].
  - (* addMember *)
    subst dbOk. unfold InventoryApp.addMember. by repeat case_match.
  - (* removeMember *)
    subst dbOk. unfold InventoryApp.removeMember. by repeat case_match.
  - (* remove *)
    subst dbOk. unfold InventoryApp.remove. by repeat case_match.
Qed.

Lemma local_write_through_in_sync_witness :
  let a := Item.mk 1 "c" "n" 5 "u" Normal "l" None None in
  let st := InventoryApp.mkState [a] ["Ann"] true 1 false None [] "" in
  let ls := LocalDb.mkStorage (Some [a]) (Some ["Ann"]) None in
  LocalDb.STORAGE_KEY
    (foldl LocalDb.perform ls
       (InventoryApp.step (H:=codeUnitPlatform) st (InventoryApp.AdjustQty 1 (-5) "t" "t")).2)
  = Some [Item.mk 1 "c" "n" 0 "u" Empty "l" None (Some "t")].
Proof.
  intros a st ls.
  destruct (local_write_through_in_sync (H:=codeUnitPlatform) st ls
              (InventoryApp.AdjustQty 1 (-5) "t" "t")) as [Hitems _].
  - apply NoDup_singleton.
  - by split.
  - reflexivity.
  - exact Hitems.
Defined.

(** X27. A quick check confirmed for a record that is no longer in the
    store (a remote "record removed" event arrived while the modal was
    open) leaves the store without the record, yet it writes the record
    through; the remote INSERT event that echoes this write puts the
    record back at the end of the store. *)
Theorem confirmQuickCheck_after_delete `{Platform} (st : InventoryApp.State)
    (it : Item.t) (now : string) :
  it ∈ InventoryApp.items st →
  let st1 :=
    InventoryApp.run st
      [InventoryApp.OpenQuickCheck it; InventoryApp.ItemsDelete (Item.id it)] in
  let out := InventoryApp.step st1 (InventoryApp.ConfirmQuickCheck now true) in
  InventoryApp.items out.1
  = InventoryApp.onItemsDelete (Item.id it) (InventoryApp.items st) ∧
  (∀ i, i ∈ InventoryApp.items out.1 → Item.id i ≠ Item.id it) ∧
  ∃ saved,
    out.2 = [DbUpsertItem saved] ∧ Item.id saved = Item.id it ∧
    InventoryApp.items
      (InventoryApp.step out.1 (InventoryApp.ItemsInsert (upsertRow saved))).1
    = InventoryApp.items out.1 ++ [saved].
Proof.
  intros Hit st1 out.
  assert (Habs : ∀ i, i ∈ InventoryApp.onItemsDelete (Item.id it)
                            (InventoryApp.items st) → Item.id i ≠ Item.id it).
  { by intros i [_ ?]%onItemsDelete_elem_of. }
  assert (Hmap : ∀ u : Item.t,
            (λ i, if Item.id i =? Item.id it then u else i)
              <$> InventoryApp.onItemsDelete (Item.id it) (InventoryApp.items st)
            = InventoryApp.onItemsDelete (Item.id it) (InventoryApp.items st)).
  { intros u.
    rewrite <- (list_fmap_id (InventoryApp.onItemsDelete _ _)) at 2.
    apply list_fmap_ext. intros _ i Hi%list_elem_of_lookup_2. simpl.
    destruct (Z.eqb_spec (Item.id i) (Item.id it)) as [Heq|]; [|done].
    by destruct (Habs i Hi). }
  assert (Hitems : InventoryApp.items out.1
                   = InventoryApp.onItemsDelete (Item.id it) (InventoryApp.items st)).
  { unfold out, st1, InventoryApp.run. simpl. by apply Hmap. }
  split; [exact Hitems|]. split; [rewrite Hitems; exact Habs|].
  eexists. split; [reflexivity|]. split; [reflexivity|].
  simpl InventoryApp.step. cbn [fst InventoryApp.items InventoryApp.setItems].
  unfold InventoryApp.onItemsInsert.
  rewrite rowToItem_upsertRow by (by eexists).
  destruct (mergeOne_spec (InventoryApp.items out.1)
              (Item.mk (Item.id it) (Item.category it) (Item.name it)
                 (Item.qty it) (Item.unit it) (Item.status it) (Item.location it)
                 (Some (Array_from (InventoryApp.checkSelected st1)))
                 (Some now)))
    as [[_ Happ]|[(x & Hx & Hid) _]]; [exact Happ|].
  rewrite Hitems in Hx. by destruct (Habs x Hx).
Qed.

Lemma confirmQuickCheck_after_delete_witness :
  let a := Item.mk 1 "c" "n" 5 "u" Normal "l" None None in
  let b := Item.mk 2 "c" "n" 0 "u" Empty "l" None None in
  let st := InventoryApp.mkState [a; b] [] true 1 false None [] "" in
  let st1 :=
    InventoryApp.run (H:=codeUnitPlatform) st
      [InventoryApp.OpenQuickCheck a; InventoryApp.ItemsDelete 1] in
  InventoryApp.items
    (InventoryApp.step (H:=codeUnitPlatform) st1 (InventoryApp.ConfirmQuickCheck "t" true)).1 = [b].
Proof.
  intros a b st st1.
  destruct (confirmQuickCheck_after_delete (H:=codeUnitPlatform) st a "t") as [Hitems _].
  - left.
  - exact Hitems.
Defined.

(** X28. The location drop-down offers "ทั้งหมด" followed by the locations
    of the records, each once; apart from "ทั้งหมด", an option is offered
    exactly when some record is stored there, and selecting it alone shows
    a non-empty view whose records are all stored there. *)
Theorem locations_options `{Platform} (items : list Item.t) (sort : Sort.t) :
  (∃ rest, View.locations items = ALL :: rest ∧ NoDup rest ∧
           ∀ l, l ∈ rest ↔ ∃ i, i ∈ items ∧ Item.location i = l) ∧
  ∀ l, l ∈ View.locations items → l ≠ ALL →
    let view :=
      filterAndSort items (Filters.mk None None None (Some l) None) sort in
    view ≠ [] ∧ ∀ i, i ∈ view → Item.location i = l.
Proof.
  split.
  - eexists. split; [reflexivity|]. unfold Array_from.
    split; [apply Set_new_NoDup|].
    intros l. rewrite Set_new_elem_of, list_elem_of_fmap.
    split; intros (i & ? & ?); by exists i.
  - intros l Hl Hne view.
    apply elem_of_cons in Hl as [?|Hl]; [done|].
    unfold Array_from in Hl.
    apply Set_new_elem_of, list_elem_of_fmap in Hl as (i & -> & Hi).
    assert (Hview : ∀ j, j ∈ view ↔ j ∈ items ∧ Item.location j = Item.location i).
    { intros j. unfold view. rewrite filterAndSort_Permutation.
      rewrite filtered_elem_of_iff. unfold passes. simpl.
      rewrite toLowerCase_empty, matchesQuery_empty.
      split.
      - intros (? & _ & _ & _ & Hloc & _). split; [done|]. by apply Hloc.
      - intros [? Hloc]. split_and!; try done. by intros l [= <-] _. }
    split.
    + intros Hnil. assert (Hin : i ∈ view) by by apply Hview.
      rewrite Hnil in Hin. by apply elem_of_nil in Hin.
    + intros j Hj. by apply Hview in Hj as [_ ?].
Qed.

Lemma locations_options_witness :
  let a := Item.mk 1 "c" "n" 5 "u" Normal "shelf" None None in
  let b := Item.mk 2 "c" "n" 0 "u" Empty "fridge" None None in
  View.locations [a; b; a] = [ALL; "shelf"; "fridge"] ∧
  filterAndSort (H:=codeUnitPlatform) [a; b; a]
    (Filters.mk None None None (Some "fridge") None) (Sort.mk K_id true) ≠ [].
Proof.
  intros a b. split; [reflexivity|].
  destruct (locations_options (H:=codeUnitPlatform) [a; b; a] (Sort.mk K_id true))
    as [_ Hopt].
  apply (Hopt "fridge").
  - vm_compute. do 2 right. left.
  - discriminate.
Defined.

(** X29. More stock never gives a worse status, and a higher threshold
    never gives a better one: [computeStatus] is monotone in the quantity
    and antitone in the threshold, in the order Empty < Low < Normal. *)
Theorem computeStatus_monotone (q1 q2 t1 t2 : Z) :
  q1 ≤ q2 → t1 ≤ t2 →
  statusRank (computeStatus q1 t2) ≤ statusRank (computeStatus q2 t1).
Proof.
  intros Hq Ht. unfold computeStatus.
  destruct (Z.leb_spec q1 0), (Z.leb_spec q1 t2), (Z.leb_spec q2 0),
    (Z.leb_spec q2 t1); simpl; lia.
Qed.

Lemma computeStatus_monotone_witness :
  statusRank (computeStatus 1 3) ≤ statusRank (computeStatus 2 1).
Proof. apply computeStatus_monotone; lia. Defined.
